(** * vscode-sftp: the File Service of the transfer orchestration engine

    A shallow embedding of the class [FileService] and of the function
    [filesIgnoredFromConfig], with the properties of configuration
    resolution, of the ignore predicate and of the transfer bookkeeping.

    JavaScript objects with a declared interface are records, objects used as
    dictionaries ([profiles], [process.env]) are finite maps that are read
    through the prototype chain, the cache [app.ignoreFileCache] (a [Map]) is
    a finite map, and the code that mutates shared state is written in a
    small state-and-exception monad over the objects it touches. *)

From Stdlib Require Import String Ascii ZArith Bool Lia.
From stdpp Require Import base option gmap strings list fin_maps.

Set Warnings "-register-all,-clear-no-such-hyp".
Set Default Proof Using "Type".

(* ===================================================================== *)
(** ** JavaScript strings *)
(* ===================================================================== *)

Module Js.

(** The double quote character, which the messages of the thrown errors
    contain, and the two line terminators of the regular expression
    [/\r?\n/g]. *)
Definition dquote : string := String (ascii_of_nat 34) EmptyString.
Definition LF : ascii := ascii_of_nat 10.
Definition CR : ascii := ascii_of_nat 13.

(** [quoted s] is [s] between double quotes, as a template literal
    writes it. *)
Definition quoted (s : string) : string := dquote +:+ s +:+ dquote.

(** [s.startsWith(p)], also [s.indexOf(p) === 0]. *)
Definition startsWith (p s : string) : bool := String.prefix p s.

(** [s.slice(1)]. *)
Definition slice1 (s : string) : string :=
  match s with
  | EmptyString => EmptyString
  | String _ s' => s'
  end.

(** [s.includes(sub)]. *)
Fixpoint includes (sub s : string) : bool :=
  String.prefix sub s
  || match s with
     | EmptyString => false
     | String _ s' => includes sub s'
     end.

(** Truthiness of a string: every string but the empty one. *)
Definition truthy (s : string) : bool :=
  match s with
  | EmptyString => false
  | String _ _ => true
  end.

(** Truthiness of a value that is a string or undefined. *)
Definition truthy_opt (o : option string) : bool :=
  match o with
  | Some s => truthy s
  | None => false
  end.

Definition cons_head (c : ascii) (l : list string) : list string :=
  match l with
  | [] => [String c EmptyString]
  | h :: t => String c h :: t
  end.

(** [s.split(/\r?\n/g)]: the pieces of [s] between line terminators, a
    terminator being a line feed or a carriage return followed by a
    line feed. The result is never empty: the empty string splits into
    one empty piece. *)
Fixpoint split_lines (s : string) : list string :=
  match s with
  | EmptyString => [EmptyString]
  | String c s' =>
      if Ascii.eqb c LF then EmptyString :: split_lines s'
      else
        match s' with
        | String c' s'' =>
            if Ascii.eqb c CR && Ascii.eqb c' LF
            then EmptyString :: split_lines s''
            else cons_head c (split_lines s')
        | EmptyString => cons_head c (split_lines s')
        end
  end.

End Js.

(* ===================================================================== *)
(** ** Property reads on plain objects *)
(* ===================================================================== *)

(** The names of the properties of [Object.prototype] (ECMAScript, the
    properties of the Object prototype object and the additional ones of
    its annex B). Every plain object inherits them, and so does
    [process.env]. What is read under such a name from an object that has no
    property of its own under it is a function ([Object.prototype] itself
    under [__proto__]): a value that is truthy, that is no string, and that
    has no enumerable property of its own. *)
Definition Object_prototype : list string :=
  ["constructor"; "hasOwnProperty"; "isPrototypeOf"; "propertyIsEnumerable";
   "toLocaleString"; "toString"; "valueOf"; "__proto__";
   "__defineGetter__"; "__defineSetter__"; "__lookupGetter__";
   "__lookupSetter__"].

(** What a read [o[key]] returns on a dictionary of [A]s: a value of the
    dictionary, or the property of [Object.prototype] of that name. *)
Inductive Value (A : Type) :=
| Val (a : A)
| Proto (name : string).
Arguments Val {A}.
Arguments Proto {A}.

(** [o[key]], undefined being [None]: the own property first, then the
    prototype. *)
Definition Object_get {A} (o : gmap string A) (key : string) : option (Value A) :=
  match o !! key with
  | Some a => Some (Val a)
  | None => if bool_decide (key ∈ Object_prototype) then Some (Proto key) else None
  end.

(** Truthiness of a value that is a string or an inherited object. *)
Definition truthy_value (v : Value string) : bool :=
  match v with
  | Val s => Js.truthy s
  | Proto _ => true
  end.

(** Truthiness of what a read returned. *)
Definition truthy_read (o : option (Value string)) : bool :=
  match o with
  | Some v => truthy_value v
  | None => false
  end.

(* ===================================================================== *)
(** ** Configuration objects *)
(* ===================================================================== *)

(** The values of the properties the File Service copies without looking
    at them (host, port, watcher, syncOption, ...). *)
Inductive Json :=
| JNull
| JBool (b : bool)
| JNum (n : Z)
| JStr (s : string)
| JArr (l : list Json)
| JObj (o : list (string * Json)).

(** An entry of [profiles]: an object of the shape of the configuration in
    which every property may be missing (a profile lists only what it
    overrides). [Object.assign] copies the properties that are present. *)
Inductive Profile := mkProfile {
  p_agent : option string;
  p_ignore : option (list string);
  p_ignoreFile : option string;
  p_remotePath : option string;
  p_profiles : option (gmap string Profile);
  p_rest : gmap string Json
}.

(** [interface FileServiceConfig] and [interface ServiceConfig]: the two
    differ in the type of [ignore] (a list of patterns in the first, a
    predicate or null in the second), which is the parameter [I]. The
    properties the File Service reads are fields; all the others are kept in
    [rest] by name; none of them is named [__proto__], under which an
    assignment would set the prototype of the copy and create no property.
    The parameter [A] is the type of [agent]: a string in the configuration
    that the File Service is given, and whatever [process.env[name]]
    returned in the object [copied] that [getConfig] works on (declared
    [any]) and returns. *)
Record Config (A I : Type) := mkConfig {
  agent : option A;
  ignore : I;
  ignoreFile : option string;
  remotePath : string;
  profiles : option (gmap string Profile);
  rest : gmap string Json
}.
Arguments mkConfig {A I}.
Arguments agent {A I}.
Arguments ignore {A I}.
Arguments ignoreFile {A I}.
Arguments remotePath {A I}.
Arguments profiles {A I}.
Arguments rest {A I}.

Abbreviation FileServiceConfig := (Config string (list string)).
Abbreviation CopiedConfig := (Config (Value string) (list string)).
Abbreviation ServiceConfig := (Config (Value string) (option (string → bool))).

(** [type ConfigValidator = (x: any) => { message: string }]: the result is
    an error object, of which only [message] is read, or a falsy value. *)
Definition ConfigValidator : Type := CopiedConfig → option string.

(** [Object.assign({}, config) as any]. *)
Definition Object_copy (config : FileServiceConfig) : CopiedConfig :=
  mkConfig (Val <$> agent config) (ignore config) (ignoreFile config)
    (remotePath config) (profiles config) (rest config).

(** [delete copied.profiles]. *)
Definition delete_profiles {A I} (c : Config A I) : Config A I :=
  mkConfig (agent c) (ignore c) (ignoreFile c) (remotePath c) None (rest c).

(** [copied.agent = val]. *)
Definition set_agent {A I} (val : A) (c : Config A I) : Config A I :=
  mkConfig (Some val) (ignore c) (ignoreFile c) (remotePath c) (profiles c) (rest c).

(** [copied.ignore = f]. *)
Definition set_ignore {A I J} (f : J) (c : Config A I) : Config A J :=
  mkConfig (agent c) f (ignoreFile c) (remotePath c) (profiles c) (rest c).

(** [o.p] after [Object.assign(o, src)], for one property: the source's
    if it has one. *)
Definition assigned {A} (src : option A) (old : A) : A :=
  match src with
  | Some v => v
  | None => old
  end.

Definition assigned_opt {A} (src : option A) (old : option A) : option A :=
  match src with
  | Some v => Some v
  | None => old
  end.

(** [Object.assign(copied, profile)]. *)
Definition Object_assign (copied : CopiedConfig) (profile : Profile)
  : CopiedConfig :=
  mkConfig
    (assigned_opt (Val <$> p_agent profile) (agent copied))
    (assigned (p_ignore profile) (ignore copied))
    (assigned_opt (p_ignoreFile profile) (ignoreFile copied))
    (assigned (p_remotePath profile) (remotePath copied))
    (assigned_opt (p_profiles profile) (profiles copied))
    (p_rest profile ∪ rest copied).

(* ===================================================================== *)
(** ** The File Service object *)
(* ===================================================================== *)

(** Objects that are compared by identity ([Scheduler], [TransferTask],
    the promise that [run] returns) are references. *)
Abbreviation SchedRef := nat (only parsing).
Abbreviation TaskRef := nat (only parsing).
Abbreviation PromiseRef := nat (only parsing).

(** [class FileService], the fields that configuration resolution and the
    transfer bookkeeping use. [_pendingTransferTasks] is a [Set]: a list in
    insertion order without repetition. [_configValidator] is undefined
    until [setConfigValidator] is called. *)
Record FileService := mkFileService {
  id : nat;
  baseDir : string;
  workspace : string;
  _profiles : option (list string);
  _pendingTransferTasks : list TaskRef;
  _schedulers : list SchedRef;
  _config : FileServiceConfig;
  _configValidator : option ConfigValidator
}.

(** [Object.keys(config.profiles)], in the order in which the map
    enumerates its keys, which need not be the order of insertion that
    [Object.keys] follows; nothing below depends on the order. *)
Definition Object_keys {A} (o : gmap string A) : list string := (map_to_list o).*1.

(** [constructor(baseDir, workspace, config)], [last_id] being the value of
    the module's counter [id] before the call. *)
Definition new_FileService (last_id : nat) (baseDir workspace : string)
    (config : FileServiceConfig) : FileService :=
  {| id := S last_id;
     baseDir := baseDir;
     workspace := workspace;
     _profiles := Object_keys <$> profiles config;
     _pendingTransferTasks := [];
     _schedulers := [];
     _config := config;
     _configValidator := None |}.

(** [setConfigValidator(configValidator)]. *)
Definition setConfigValidator (configValidator : ConfigValidator)
    (this : FileService) : FileService :=
  {| id := id this;
     baseDir := baseDir this;
     workspace := workspace this;
     _profiles := _profiles this;
     _pendingTransferTasks := _pendingTransferTasks this;
     _schedulers := _schedulers this;
     _config := _config this;
     _configValidator := Some configValidator |}.

(** [getAvaliableProfiles()]. *)
Definition getAvaliableProfiles (this : FileService) : list string :=
  default [] (_profiles this).

(** [getPendingTransferTasks()]. *)
Definition getPendingTransferTasks (this : FileService) : list TaskRef :=
  _pendingTransferTasks this.

(** [isTransferring()]. *)
Definition isTransferring (this : FileService) : bool :=
  0 <? length (_schedulers this).

(* ===================================================================== *)
(** ** What configuration resolution reads and writes *)
(* ===================================================================== *)

(** A call of the [fs] module. *)
Inductive FsCall :=
| ExistsSync (path : string)
| ReadFileSync (path : string).

(** Why a read of something that is on disk fails: it is a directory, or
    the process may not read it. *)
Inductive ReadError := EISDIR | EACCES.

(** What the disk has at a path: a file with its text, or something that
    [existsSync] finds and [readFileSync] cannot read. *)
Inductive Entry :=
| File (text : string)
| Unreadable (why : ReadError).

(** The process state around a call of [getConfig]: [app.ignoreFileCache],
    [app.state.profile] (null or undefined is [None]), the variables of
    [process.env], what is on disk, the calls of [fs] made so far (the
    latest last) and the lines given to [logger.info]. *)
Record World := mkWorld {
  ignoreFileCache : gmap string (list string);
  state_profile : option string;
  process_env : gmap string string;
  disk : gmap string Entry;
  fs_calls : list FsCall;
  logged : list string
}.

(** What a [throw] carries: [new Error(message)]. *)
Inductive Exn := Error (message : string).

Definition message_of (e : Exn) : string :=
  match e with Error m => m end.

Inductive Outcome (A : Type) :=
| Ok (a : A)
| Throw (e : Exn).
Arguments Ok {A}.
Arguments Throw {A}.

(** Computations over the process state that return or throw. *)
Definition M (A : Type) : Type := World → Outcome A * World.

#[global] Instance M_ret : MRet M := λ A a w, (Ok a, w).
#[global] Instance M_bind : MBind M := λ A B f m w,
  match m w with
  | (Ok a, w') => f a w'
  | (Throw e, w') => (Throw e, w')
  end.

Definition throw {A} (e : Exn) : M A := λ w, (Throw e, w).

Definition cache_get (key : string) : M (option (list string)) :=
  λ w, (Ok (ignoreFileCache w !! key), w).

Definition cache_set (key : string) (lines : list string) : M unit :=
  λ w, (Ok (),
        mkWorld (<[key := lines]> (ignoreFileCache w)) (state_profile w)
                (process_env w) (disk w) (fs_calls w) (logged w)).

Definition record_fs (c : FsCall) (w : World) : World :=
  mkWorld (ignoreFileCache w) (state_profile w) (process_env w) (disk w)
          (fs_calls w ++ [c]) (logged w).

(** [fs.existsSync(path)]. *)
Definition existsSync (path : string) : M bool :=
  λ w, (Ok (bool_decide (is_Some (disk w !! path))), record_fs (ExistsSync path) w).

(** The message of the error that a failed read throws. *)
Definition readErrorMessage (why : ReadError) (path : string) : string :=
  match why with
  | EISDIR => "EISDIR: illegal operation on a directory, read"
  | EACCES => "EACCES: permission denied, open '" +:+ path +:+ "'"
  end.

(** [fs.readFileSync(path).toString()]; reading what is not there, or what
    cannot be read, throws. *)
Definition readFileSync (path : string) : M string :=
  λ w, (match disk w !! path with
        | Some (File text) => Ok text
        | Some (Unreadable why) => Throw (Error (readErrorMessage why path))
        | None => Throw (Error ("ENOENT: no such file or directory, open '"
                                +:+ path +:+ "'"))
        end, record_fs (ReadFileSync path) w).

(** [process.env[name]]: the variable of that name, or else what
    [process.env] inherits under that name. *)
Definition getenv (name : string) : M (option (Value string)) :=
  λ w, (Ok (Object_get (process_env w) name), w).

(** [app.state.profile]. *)
Definition app_state_profile : M (option string) :=
  λ w, (Ok (state_profile w), w).

Definition log_line (line : string) (w : World) : World :=
  mkWorld (ignoreFileCache w) (state_profile w) (process_env w) (disk w)
          (fs_calls w) (logged w ++ [line]).

(** [logger.info(line)]. *)
Definition logger_info (line : string) : M unit :=
  λ w, (Ok (), log_line line w).

#[global] Instance FsCall_eq_dec : EqDecision FsCall.
Proof. solve_decision. Defined.

(** The number of calls of [readFileSync] for [path]. *)
Definition reads_of (path : string) (calls : list FsCall) : nat :=
  length (filter (λ c, c = ReadFileSync path) calls).

(* ===================================================================== *)
(** ** The ignore resolver *)
(* ===================================================================== *)

(** The message of the error for an ignore file that is not there. *)
Definition notFoundMessage (ignoreFile : string) : string :=
  "File " +:+ ignoreFile +:+ " not found. Check your config of "
  +:+ Js.quoted "ignoreFile".

(** [function filesIgnoredFromConfig(config)]; its only caller passes the
    object [copied] of [getConfig]. *)
Definition filesIgnoredFromConfig {A} (config : Config A (list string))
  : M (list string) :=
  let ignore : list string :=
    if 0 <? length (ignore config) then ignore config else [] in
  match ignoreFile config with
  | None => mret ignore
  | Some ignoreFile =>
      if negb (Js.truthy ignoreFile) then mret ignore
      else
        cached ← cache_get ignoreFile;
        ignoreFromFile ←
          match cached with
          | Some lines => mret lines
          | None =>
              found ← existsSync ignoreFile;
              if found : bool then
                text ← readFileSync ignoreFile;
                let lines := Js.split_lines text in
                _ ← cache_set ignoreFile lines;
                mret lines
              else
                throw (Error (notFoundMessage ignoreFile))
          end;
        mret (ignore ++ ignoreFromFile)
  end.

(** The modules the ignore predicate calls and that are not part of the
    File Service: [path.normalize] and [path.relative] of the platform,
    [upath.relative], and the pattern matcher ([Ignore.from(patterns)] and
    its method [ignores]). Their results are not constrained here. *)
Class PathModules := {
  path_normalize : string → string;
  path_relative : string → string → string;
  upath_relative : string → string → string;
  Ignore : Type;
  Ignore_from : list string → Ignore;
  ignores : Ignore → string → bool
}.

Section IgnoreResolver.
Context `{PathModules}.

(** The relative path that [ignoreFunc] computes for [fsPath]: under the
    local base directory when the normalized path starts with it, under the
    remote root otherwise. *)
Definition relativePath (localContext remoteContext fsPath : string) : string :=
  let normalizedPath := path_normalize fsPath in
  if Js.startsWith localContext normalizedPath
  then path_relative localContext fsPath
  else upath_relative remoteContext fsPath.

(** [const ignoreFunc = fsPath => ...], with the variables it closes over. *)
Definition ignoreFunc (localContext remoteContext : string) (ignore : Ignore)
    (fsPath : string) : bool :=
  let relativePath := relativePath localContext remoteContext fsPath in
  negb (String.eqb relativePath EmptyString) && ignores ignore relativePath.

(** [_createIgnoreFn(config)]: null is [None]. *)
Definition _createIgnoreFn {A} (this : FileService) (config : Config A (list string))
  : M (option (string → bool)) :=
  let localContext := baseDir this in
  let remoteContext := remotePath config in
  ignoreConfig ← filesIgnoredFromConfig config;
  if length ignoreConfig <=? 0 then mret None
  else
    let ignore := Ignore_from ignoreConfig in
    mret (Some (ignoreFunc localContext remoteContext ignore)).

(* ===================================================================== *)
(** ** The configuration resolver *)
(* ===================================================================== *)

(** [config.profiles && Object.keys(config.profiles).length > 0]. *)
Definition hasProfile (config : FileServiceConfig) : bool :=
  match profiles config with
  | Some ps => 0 <? length (Object_keys ps)
  | None => false
  end.

Definition envNotFoundMessage (evnVarName : string) : string :=
  "Environment variable " +:+ Js.quoted evnVarName +:+ " not found".

(** The first block of [getConfig]: the indirection of [agent] through
    the environment. *)
Definition resolveAgent (config : FileServiceConfig) (copied : CopiedConfig)
  : M CopiedConfig :=
  match agent config with
  | Some a =>
      if Js.truthy a && Js.startsWith "$" a then
        let evnVarName := Js.slice1 a in
        val ← getenv evnVarName;
        match val with
        | Some v =>
            if negb (truthy_value v) then
              throw (Error (envNotFoundMessage evnVarName))
            else mret (set_agent v copied)
        | None => throw (Error (envNotFoundMessage evnVarName))
        end
      else mret copied
  | None => mret copied
  end.

Definition unknownProfileMessage (name : string) : string :=
  "Unkown Profile " +:+ Js.quoted name +:+ "."
  +:+ " Please check your profile setting."
  +:+ " You can set a profile by running command `SFTP: Set Profile`.".

(** The second block: the overlay of the active profile. What
    [config.profiles[name]] inherits from [Object.prototype] is truthy and
    has no enumerable property of its own for [Object.assign] to copy. *)
Definition applyProfile (config : FileServiceConfig) (copied : CopiedConfig)
  : M CopiedConfig :=
  active ← app_state_profile;
  if hasProfile config && Js.truthy_opt active then
    let name := default EmptyString active in
    _ ← logger_info ("Using profile: " +:+ name);
    match Object_get (default ∅ (profiles config)) name with
    | None => throw (Error (unknownProfileMessage name))
    | Some (Val profile) => mret (Object_assign copied profile)
    | Some (Proto _) => mret copied
    end
  else mret copied.

Definition validationMessage (message : string) (hint : bool) : string :=
  let errorMsg := "Config validation fail: " +:+ message +:+ "." in
  if hint then errorMsg +:+ " Maybe you should set a profile first." else errorMsg.

(** The third block: the validator, when one is installed. *)
Definition validate (this : FileService) (config : FileServiceConfig)
    (copied : CopiedConfig) : M unit :=
  let error :=
    match _configValidator this with
    | Some configValidator => configValidator copied
    | None => None
    end in
  match error with
  | Some message =>
      active ← app_state_profile;
      throw (Error (validationMessage message
                      (hasProfile config && bool_decide (active = None))))
  | None => mret ()
  end.

(** [getConfig()]. *)
Definition getConfig (this : FileService) : M ServiceConfig :=
  let config := _config this in
  let copied := delete_profiles (Object_copy config) in
  copied ← resolveAgent config copied;
  copied ← applyProfile config copied;
  _ ← validate this config copied;
  ignore ← _createIgnoreFn this copied;
  mret (set_ignore ignore copied).

(** What the blocks of [getConfig] before the conversion of the ignore
    configuration leave in [copied]: the effective configuration. *)
Definition mergedConfig (this : FileService) : M CopiedConfig :=
  let config := _config this in
  let copied := delete_profiles (Object_copy config) in
  copied ← resolveAgent config copied;
  copied ← applyProfile config copied;
  _ ← validate this config copied;
  mret copied.

(** The profile that [getConfig] overlays, if it overlays one: an entry of
    the map itself. *)
Definition appliedProfile (config : FileServiceConfig) (w : World) : option Profile :=
  if hasProfile config && Js.truthy_opt (state_profile w)
  then default ∅ (profiles config) !! default EmptyString (state_profile w)
  else None.

(** The resolver run for each configuration of a list in turn. *)
Definition resolve_all {A} (configs : list (Config A (list string))) (w : World)
  : World :=
  foldl (λ w config, (filesIgnoredFromConfig config w).2) w configs.

End IgnoreResolver.

Definition succeeded {A} (r : Outcome A) : bool :=
  match r with
  | Ok _ => true
  | Throw _ => false
  end.

(** What the [fs] module and the cache of ignore files hold, and what the
    first blocks of [getConfig] read. *)
Definition fs_part (w : World) : gmap string (list string) * gmap string Entry * list FsCall :=
  (ignoreFileCache w, disk w, fs_calls w).

Definition inputs (w : World) : option string * gmap string string :=
  (state_profile w, process_env w).

(* ===================================================================== *)
(** ** The scheduler *)
(* ===================================================================== *)

(** The listeners that the File Service registers on a scheduler are
    closures; each is represented by a constructor holding the variables it
    captures. *)

(** [scheduler.onTaskStart(task => ...)] in [createTransferScheduler]. *)
Inductive StartListener := TrackPending.

(** [scheduler.onTaskDone((err, task) => ...)] in [createTransferScheduler]. *)
Inductive DoneListener := UntrackPending.

(** [scheduler.onIdle(() => ...)] in [run]: it captures the scheduler and
    the [resolve] of the promise under construction. *)
Inductive IdleListener := ResolveRun (scheduler : SchedRef) (promise : PromiseRef).

(** Modelled from the spec: the class [Scheduler] (section 4.3), which the
    File Service imports. It owns a FIFO queue of tasks not yet started, the
    tasks that are running, a concurrency limit fixed at construction, and
    the listeners of its three notifications in registration order. *)
Record Scheduler := mkScheduler {
  concurrency : nat;
  autoStart : bool;
  started : bool;
  queue : list TaskRef;
  running : list TaskRef;
  onTaskStart_listeners : list StartListener;
  onTaskDone_listeners : list DoneListener;
  onIdle_listeners : list IdleListener
}.

(** Modelled from the spec: the constructor of the class [Scheduler],
    [new Scheduler({autoStart, concurrency})]. *)
Definition new_Scheduler (autoStart : bool) (concurrency : nat) : Scheduler :=
  mkScheduler concurrency autoStart false [] [] [] [] [].

(** Modelled from the spec: [size] of the class [Scheduler], the count of
    queued-plus-running tasks. *)
Definition size_of (s : Scheduler) : nat := length (queue s) + length (running s).

(** Modelled from the spec: [empty()] of the class [Scheduler] removes all
    tasks not yet started; tasks already running are unaffected. *)
Definition Scheduler_empty (s : Scheduler) : Scheduler :=
  mkScheduler (concurrency s) (autoStart s) (started s) [] (running s)
    (onTaskStart_listeners s) (onTaskDone_listeners s) (onIdle_listeners s).

(** Modelled from the spec: [add(task)] of the class [Scheduler] appends to
    the pending queue. *)
Definition Scheduler_enqueue (task : TaskRef) (s : Scheduler) : Scheduler :=
  mkScheduler (concurrency s) (autoStart s) (started s) (queue s ++ [task])
    (running s) (onTaskStart_listeners s) (onTaskDone_listeners s)
    (onIdle_listeners s).

(** Modelled from the spec: [onTaskStart], [onTaskDone] and [onIdle] of the
    class [Scheduler] register a listener after those already registered. *)
Definition Scheduler_onTaskStart (l : StartListener) (s : Scheduler) : Scheduler :=
  mkScheduler (concurrency s) (autoStart s) (started s) (queue s) (running s)
    (onTaskStart_listeners s ++ [l]) (onTaskDone_listeners s) (onIdle_listeners s).

(** Modelled from the spec: [onTaskDone] of the class [Scheduler]. *)
Definition Scheduler_onTaskDone (l : DoneListener) (s : Scheduler) : Scheduler :=
  mkScheduler (concurrency s) (autoStart s) (started s) (queue s) (running s)
    (onTaskStart_listeners s) (onTaskDone_listeners s ++ [l]) (onIdle_listeners s).

(** Modelled from the spec: [onIdle] of the class [Scheduler]. *)
Definition Scheduler_onIdle (l : IdleListener) (s : Scheduler) : Scheduler :=
  mkScheduler (concurrency s) (autoStart s) (started s) (queue s) (running s)
    (onTaskStart_listeners s) (onTaskDone_listeners s) (onIdle_listeners s ++ [l]).

(** Modelled from the spec: a scheduler of the class [Scheduler] that was
    started stays so. *)
Definition Scheduler_set_started (s : Scheduler) : Scheduler :=
  mkScheduler (concurrency s) (autoStart s) true (queue s) (running s)
    (onTaskStart_listeners s) (onTaskDone_listeners s) (onIdle_listeners s).

(** Modelled from the spec: the tasks that a dispatch of the class
    [Scheduler] moves from the queue to the running set, the oldest first,
    up to the concurrency limit. *)
Definition dispatched (s : Scheduler) : list TaskRef :=
  take (concurrency s - length (running s)) (queue s).

(** Modelled from the spec: the class [Scheduler] after a dispatch. *)
Definition Scheduler_dispatch (s : Scheduler) : Scheduler :=
  mkScheduler (concurrency s) (autoStart s) (started s)
    (drop (concurrency s - length (running s)) (queue s))
    (running s ++ dispatched s)
    (onTaskStart_listeners s) (onTaskDone_listeners s) (onIdle_listeners s).

(** Modelled from the spec: in the class [Scheduler], a running task leaves
    the running set when its work concludes. *)
Definition Scheduler_retire (task : TaskRef) (s : Scheduler) : Scheduler :=
  mkScheduler (concurrency s) (autoStart s) (started s) (queue s)
    (filter (λ t, t ≠ task) (running s))
    (onTaskStart_listeners s) (onTaskDone_listeners s) (onIdle_listeners s).

(** Modelled from the spec: a scheduler of the class [Scheduler] is idle
    when its running count and its queue length are both zero. *)
Definition is_idle (s : Scheduler) : bool :=
  (length (queue s) =? 0) && (length (running s) =? 0).

(* ===================================================================== *)
(** ** Transfers: the File Service, its schedulers and its tasks *)
(* ===================================================================== *)

(** What the File Service does to the objects it owns, in the order in
    which it does it. *)
Inductive Action :=
| SchedulerEmptied (s : SchedRef)
| SchedulersCleared
| SchedulerStored (s : SchedRef)
| SchedulerRemoved (s : SchedRef)
| SchedulerStarted (s : SchedRef)
| TaskCancelled (t : TaskRef)
| PendingCleared
| Emitted_BEFORE_TRANSFER (t : TaskRef)
| Emitted_AFTER_TRANSFER (err : option string) (t : TaskRef)
| Resolved (p : PromiseRef).

(** The File Service with the objects it refers to: the scheduler objects
    by reference (a scheduler stays alive through the handle returned by
    [createTransferScheduler] after the service has dropped it), the promises
    returned by [run] with the scheduler each belongs to and whether it is
    resolved, the transfer tasks whose [cancel()] was called, and the actions
    performed so far, the latest last. *)
Record Transfers := mkTransfers {
  this : FileService;
  heap : gmap SchedRef Scheduler;
  promises : list (SchedRef * bool);
  cancelled : list TaskRef;
  actions : list Action
}.

Definition set_this (f : FileService → FileService) (w : Transfers) : Transfers :=
  mkTransfers (f (this w)) (heap w) (promises w) (cancelled w) (actions w).

Definition set_schedulers (l : list SchedRef) (fsv : FileService) : FileService :=
  mkFileService (id fsv) (baseDir fsv) (workspace fsv) (_profiles fsv)
    (_pendingTransferTasks fsv) l (_config fsv) (_configValidator fsv).

Definition set_pending (l : list TaskRef) (fsv : FileService) : FileService :=
  mkFileService (id fsv) (baseDir fsv) (workspace fsv) (_profiles fsv)
    l (_schedulers fsv) (_config fsv) (_configValidator fsv).

Definition update_scheduler (s : SchedRef) (f : Scheduler → Scheduler)
    (w : Transfers) : Transfers :=
  mkTransfers (this w) (alter f s (heap w)) (promises w) (cancelled w) (actions w).

Definition act (a : Action) (w : Transfers) : Transfers :=
  mkTransfers (this w) (heap w) (promises w) (cancelled w) (actions w ++ [a]).

(** [Set.prototype.add] and [Set.prototype.delete]. *)
Definition Set_add (t : TaskRef) (l : list TaskRef) : list TaskRef :=
  if bool_decide (t ∈ l) then l else l ++ [t].

Definition Set_delete (t : TaskRef) (l : list TaskRef) : list TaskRef :=
  filter (λ x, x ≠ t) l.

(** Modelled from the spec: [cancel()] of the class [TransferTask] sets the
    cancellation signal of the task; stopping is left to the executor of
    the task. *)
Definition TransferTask_cancel (t : TaskRef) (w : Transfers) : Transfers :=
  act (TaskCancelled t)
    (mkTransfers (this w) (heap w) (promises w) (Set_add t (cancelled w)) (actions w)).

(** [xs.forEach(f)] over the elements that the collection holds when the
    loop starts. *)
Definition forEach {A} (f : A → Transfers → Transfers) (xs : list A)
    (w : Transfers) : Transfers :=
  foldl (λ w x, f x w) w xs.

(** [s.empty()] on the scheduler that [s] refers to. *)
Definition empty_scheduler (s : SchedRef) (w : Transfers) : Transfers :=
  act (SchedulerEmptied s) (update_scheduler s Scheduler_empty w).

(** [cancelTransferTasks()]. *)
Definition cancelTransferTasks (w : Transfers) : Transfers :=
  (* 1, remove tasks not start *)
  let w := forEach empty_scheduler (_schedulers (this w)) w in
  let w := act SchedulersCleared (set_this (set_schedulers []) w) in
  (* 2. cancel running task *)
  let w := forEach TransferTask_cancel (_pendingTransferTasks (this w)) w in
  act PendingCleared (set_this (set_pending []) w).

(** [_storeScheduler(scheduler)]. *)
Definition _storeScheduler (scheduler : SchedRef) (w : Transfers) : Transfers :=
  act (SchedulerStored scheduler)
    (set_this (λ fsv, set_schedulers (_schedulers fsv ++ [scheduler]) fsv) w).

(** [findIndex(s => s === scheduler)], [None] for -1. *)
Fixpoint findIndex (scheduler : SchedRef) (l : list SchedRef) : option nat :=
  match l with
  | [] => None
  | s :: l' => if bool_decide (s = scheduler) then Some 0
               else S <$> findIndex scheduler l'
  end.

(** [_removeScheduler(scheduler)]: [splice(index, 1)] is [delete index]. *)
Definition _removeScheduler (scheduler : SchedRef) (w : Transfers) : Transfers :=
  match findIndex scheduler (_schedulers (this w)) with
  | Some index =>
      act (SchedulerRemoved scheduler)
        (set_this (λ fsv, set_schedulers (delete index (_schedulers fsv)) fsv) w)
  | None => w
  end.

(** [resolve()] of the promise [p]. *)
Definition resolve (p : PromiseRef) (w : Transfers) : Transfers :=
  act (Resolved p)
    (mkTransfers (this w) (heap w)
       (alter (λ sp, (sp.1, true)) p (promises w)) (cancelled w) (actions w)).

(** The bodies of the three listeners. *)
Definition call_StartListener (l : StartListener) (task : TaskRef)
    (w : Transfers) : Transfers :=
  match l with
  | TrackPending =>
      let w := set_this (λ fsv, set_pending (Set_add task (_pendingTransferTasks fsv)) fsv) w in
      act (Emitted_BEFORE_TRANSFER task) w
  end.

Definition call_DoneListener (l : DoneListener) (err : option string)
    (task : TaskRef) (w : Transfers) : Transfers :=
  match l with
  | UntrackPending =>
      let w := set_this (λ fsv, set_pending (Set_delete task (_pendingTransferTasks fsv)) fsv) w in
      act (Emitted_AFTER_TRANSFER err task) w
  end.

Definition call_IdleListener (l : IdleListener) (w : Transfers) : Transfers :=
  match l with
  | ResolveRun scheduler p => resolve p (_removeScheduler scheduler w)
  end.

Definition listeners_of {A} (f : Scheduler → list A) (s : SchedRef)
    (w : Transfers) : list A :=
  match heap w !! s with
  | Some sch => f sch
  | None => []
  end.

(** Modelled from the spec: the notifications of the class [Scheduler],
    each delivered synchronously to its listeners in registration order. *)
Definition notify_task_started (s : SchedRef) (task : TaskRef)
    (w : Transfers) : Transfers :=
  forEach (λ l, call_StartListener l task) (listeners_of onTaskStart_listeners s w) w.

Definition notify_task_done (s : SchedRef) (err : option string) (task : TaskRef)
    (w : Transfers) : Transfers :=
  forEach (λ l, call_DoneListener l err task) (listeners_of onTaskDone_listeners s w) w.

Definition notify_idle (s : SchedRef) (w : Transfers) : Transfers :=
  forEach call_IdleListener (listeners_of onIdle_listeners s w) w.

(** Modelled from the spec: dispatching in the class [Scheduler] starts
    queued tasks, the oldest first, while fewer than [concurrency] tasks run;
    task-started fires for each of them. *)
Definition dispatch (s : SchedRef) (w : Transfers) : Transfers :=
  match heap w !! s with
  | Some sch =>
      forEach (notify_task_started s) (dispatched sch)
        (update_scheduler s Scheduler_dispatch w)
  | None => w
  end.

(** Modelled from the spec: [start()] of the class [Scheduler] begins
    dispatching queued tasks up to the concurrency limit. *)
Definition Scheduler_start (s : SchedRef) (w : Transfers) : Transfers :=
  dispatch s (act (SchedulerStarted s) (update_scheduler s Scheduler_set_started w)).

(** Modelled from the spec: [add(task)] of the class [Scheduler] appends to
    the queue, at any time before or during a run; a scheduler that starts
    by itself or that is running dispatches. *)
Definition Scheduler_add (s : SchedRef) (task : TaskRef) (w : Transfers) : Transfers :=
  let w := update_scheduler s (Scheduler_enqueue task) w in
  match heap w !! s with
  | Some sch => if autoStart sch || started sch then dispatch s w else w
  | None => w
  end.

(** Modelled from the spec: in the class [Scheduler], the work of the
    running task [task] of the scheduler [s] concludes (success, failure or cancellation; [err] is
    the error if any). Task-done fires, then the next queued task is
    dispatched, then idle fires if nothing is left. Nothing happens when
    [task] is not running in [s]. *)
Definition task_finished (s : SchedRef) (err : option string) (task : TaskRef)
    (w : Transfers) : Transfers :=
  match heap w !! s with
  | Some sch =>
      if bool_decide (task ∈ running sch) then
        let w := update_scheduler s (Scheduler_retire task) w in
        let w := notify_task_done s err task w in
        let w := dispatch s w in
        match heap w !! s with
        | Some sch' => if is_idle sch' then notify_idle s w else w
        | None => w
        end
      else w
  | None => w
  end.

(** [createTransferScheduler(concurrency)]: the handle it returns closes
    over the new scheduler and is represented by the reference to it. *)
Definition createTransferScheduler (concurrency : nat) (w : Transfers)
  : SchedRef * Transfers :=
  let scheduler := fresh (dom (heap w)) in
  let w := mkTransfers (this w) (<[scheduler := new_Scheduler false concurrency]> (heap w))
             (promises w) (cancelled w) (actions w) in
  let w := _storeScheduler scheduler w in
  let w := update_scheduler scheduler (Scheduler_onTaskStart TrackPending) w in
  let w := update_scheduler scheduler (Scheduler_onTaskDone UntrackPending) w in
  (scheduler, w).

(** [get size()] of the handle. *)
Definition TransferScheduler_size (scheduler : SchedRef) (w : Transfers) : nat :=
  match heap w !! scheduler with
  | Some sch => size_of sch
  | None => 0
  end.

(** [add(task)] of the handle. *)
Definition TransferScheduler_add (scheduler : SchedRef) (task : TaskRef)
    (w : Transfers) : Transfers :=
  Scheduler_add scheduler task w.

(** [run()] of the handle: the promise it returns and the state when the
    executor of the promise has run. *)
Definition TransferScheduler_run (scheduler : SchedRef) (w : Transfers)
  : PromiseRef * Transfers :=
  let p := length (promises w) in
  let w := mkTransfers (this w) (heap w) (promises w ++ [(scheduler, false)])
             (cancelled w) (actions w) in
  if TransferScheduler_size scheduler w <=? 0 then
    (p, resolve p (_removeScheduler scheduler w))
  else
    let w := update_scheduler scheduler (Scheduler_onIdle (ResolveRun scheduler p)) w in
    (p, Scheduler_start scheduler w).

(** Whether the promise [p] is resolved, and the scheduler whose [run]
    returned it. *)
Definition is_resolved (p : PromiseRef) (w : Transfers) : bool :=
  match promises w !! p with
  | Some (_, r) => r
  | None => false
  end.

Definition scheduler_of (p : PromiseRef) (w : Transfers) : option SchedRef :=
  fst <$> promises w !! p.

(** What can happen to a File Service between two turns of the event
    loop: a call of one of its methods or of a handle, or the end of the
    work of a running task. *)
Inductive Op :=
| CreateTransferScheduler (concurrency : nat)
| Add (scheduler : SchedRef) (task : TaskRef)
| Run (scheduler : SchedRef)
| TaskFinished (scheduler : SchedRef) (err : option string) (task : TaskRef)
| CancelTransferTasks.

Definition step (w : Transfers) (op : Op) : Transfers :=
  match op with
  | CreateTransferScheduler concurrency => (createTransferScheduler concurrency w).2
  | Add scheduler task =>
      if bool_decide (is_Some (heap w !! scheduler))
      then TransferScheduler_add scheduler task w else w
  | Run scheduler =>
      if bool_decide (is_Some (heap w !! scheduler))
      then (TransferScheduler_run scheduler w).2 else w
  | TaskFinished scheduler err task => task_finished scheduler err task w
  | CancelTransferTasks => cancelTransferTasks w
  end.

Definition exec (ops : list Op) (w : Transfers) : Transfers := foldl step w ops.

(** A File Service as its constructor leaves it, with no scheduler and no
    promise yet. *)
Definition fresh_service (fsv : FileService) : Transfers :=
  mkTransfers (set_pending [] (set_schedulers [] fsv)) ∅ [] [] [].

(** Whether some scheduler of the active-scheduler list holds a queued or
    a running task. *)
Definition holds_tasks (w : Transfers) : bool :=
  existsb (λ s, 0 <? TransferScheduler_size s w) (_schedulers (this w)).

(* ===================================================================== *)
(** ** The invariant of the transfer bookkeeping *)
(* ===================================================================== *)

(** The idle listeners of every scheduler object. *)
Definition idles (w : Transfers) : gmap SchedRef (list IdleListener) :=
  onIdle_listeners <$> heap w.

(** Two states with the same active-scheduler list, the same idle
    listeners and the same promises. *)
Definition same_view (w w' : Transfers) : Prop :=
  _schedulers (this w') = _schedulers (this w)
  ∧ idles w' = idles w
  ∧ promises w' = promises w.

(** The list that [_removeScheduler] leaves. *)
Definition without (s : SchedRef) (l : list SchedRef) : list SchedRef :=
  match findIndex s l with
  | Some index => delete index l
  | None => l
  end.

(** The invariant of the transfer bookkeeping: the active-scheduler list
    holds live schedulers without repetition, every promise belongs to a
    live scheduler, the scheduler of a resolved promise is not on the list,
    and every idle listener resolves a promise of the scheduler that it
    removes. *)
Definition wf3 (L : list SchedRef) (I : gmap SchedRef (list IdleListener))
    (P : list (SchedRef * bool)) : Prop :=
  NoDup L
  ∧ (∀ s, s ∈ L → is_Some (I !! s))
  ∧ (∀ p s b, P !! p = Some (s, b) → is_Some (I !! s))
  ∧ (∀ p s, P !! p = Some (s, true) → s ∉ L)
  ∧ (∀ s ls s' p, I !! s = Some ls → ResolveRun s' p ∈ ls →
                  ∃ b, P !! p = Some (s', b)).

Definition wf (w : Transfers) : Prop :=
  wf3 (_schedulers (this w)) (idles w) (promises w).

(* ===================================================================== *)
(** ** Host information *)
(* ===================================================================== *)

(** The value of a property of a resolved configuration, seen as the
    object that [getHostInfo] enumerates. *)
Inductive PropValue :=
| PStr (s : string)
| PProto (name : string)
| PIgnore (f : option (string → bool))
| PProfiles (ps : gmap string Profile)
| PJson (j : Json).

(** The properties that the record holds as fields. *)
Definition field_names : list string :=
  ["agent"; "ignore"; "ignoreFile"; "remotePath"; "profiles"].

(** [config[key]], undefined being [None]. *)
Definition get_property (config : ServiceConfig) (key : string) : option PropValue :=
  if bool_decide (key = "agent") then
    match agent config with
    | Some (Val s) => Some (PStr s)
    | Some (Proto name) => Some (PProto name)
    | None => None
    end
  else if bool_decide (key = "ignore") then Some (PIgnore (ignore config))
  else if bool_decide (key = "ignoreFile") then PStr <$> ignoreFile config
  else if bool_decide (key = "remotePath") then Some (PStr (remotePath config))
  else if bool_decide (key = "profiles") then PProfiles <$> profiles config
  else PJson <$> rest config !! key.

(** [Object.keys(config)]: the fields that are present, then the names of
    the other properties. The order plays no role in what [getHostInfo]
    builds. *)
Definition own_keys (config : ServiceConfig) : list string :=
  filter (λ key, is_Some (get_property config key)) field_names
  ++ filter (λ key, key ∉ field_names) (Object_keys (rest config)).

(** [const ignoreOptions] of [getHostInfo]. *)
Definition ignoreOptions : list string :=
  ["name"; "remotePath"; "uploadOnSave"; "downloadOnOpen"; "ignore";
   "ignoreFile"; "watcher"; "concurrency"; "syncOption"; "sshConfigPath"].

(** The callback of [reduce] in [getHostInfo]; [indexOf(key) === -1] is
    [key ∉ ignoreOptions]. *)
Definition copy_option (config : ServiceConfig) (obj : gmap string PropValue)
    (key : string) : gmap string PropValue :=
  if bool_decide (key ∉ ignoreOptions) then
    match get_property config key with
    | Some v => <[key := v]> obj
    | None => obj
    end
  else obj.

(** [function getHostInfo(config)]. *)
Definition getHostInfo (config : ServiceConfig) : gmap string PropValue :=
  foldl (copy_option config) ∅ (own_keys config).

(* ===================================================================== *)
(** ** The watcher and the remote file system of a File Service *)
(* ===================================================================== *)

(** A watcher service is an object with the methods [create] and
    [dispose]: [None] is the object that the class installs at first, whose
    methods do nothing, and [Some n] an implementation given to
    [setWatcherService]. *)
Abbreviation WatcherService := (option nat) (only parsing).

(** The calls that leave the File Service: the two methods of the watcher
    service, and [createRemoteIfNoneExist] and [removeRemote] of the remote
    file systems. *)
Inductive Effect :=
| Watcher_create (watcherService : WatcherService) (watcherBase : string)
    (watcherConfig : option Json)
| Watcher_dispose (watcherService : WatcherService) (watcherBase : string)
| CreateRemoteIfNoneExist (hostInfo : gmap string PropValue)
| RemoveRemote (hostInfo : gmap string PropValue).

(** The File Service with its field [_watcherService] and the calls made so
    far, the latest last. The field [_watcherConfig] is [config.watcher] of
    the configuration given to the constructor. *)
Record Connection := mkConnection {
  fileService : FileService;
  _watcherService : WatcherService;
  effects : list Effect
}.

Definition _watcherConfig (c : Connection) : option Json :=
  rest (_config (fileService c)) !! "watcher".

Definition new_Connection (fsv : FileService) : Connection :=
  mkConnection fsv None [].

Definition perform (e : Effect) (c : Connection) : Connection :=
  mkConnection (fileService c) (_watcherService c) (effects c ++ [e]).

(** [_createWatcher()]. *)
Definition _createWatcher (c : Connection) : Connection :=
  perform (Watcher_create (_watcherService c) (baseDir (fileService c))
             (_watcherConfig c)) c.

(** [_disposeWatcher()]. *)
Definition _disposeWatcher (c : Connection) : Connection :=
  perform (Watcher_dispose (_watcherService c) (baseDir (fileService c))) c.

(** [setWatcherService(watcherService)]; the field holds an object from the
    construction on, so the test of the first statement succeeds. *)
Definition setWatcherService (watcherService : WatcherService) (c : Connection)
  : Connection :=
  let c := _disposeWatcher c in
  let c := mkConnection (fileService c) watcherService (effects c) in
  _createWatcher c.

(** [getRemoteFileSystem(config)]. *)
Definition getRemoteFileSystem (config : ServiceConfig) (c : Connection)
  : Connection :=
  perform (CreateRemoteIfNoneExist (getHostInfo config)) c.

(** The host information of a call to the remote file systems, and the
    base directory of a [create] of a watcher. *)
Definition is_remote_effect (e : Effect) : option (gmap string PropValue) :=
  match e with
  | CreateRemoteIfNoneExist h | RemoveRemote h => Some h
  | _ => None
  end.

Definition is_create (e : Effect) : option string :=
  match e with
  | Watcher_create _ watcherBase _ => Some watcherBase
  | _ => None
  end.

(** Every [create] of the list directly follows a [dispose] for the same
    base directory. *)
Definition creates_follow_disposes (l : list Effect) : Prop :=
  ∀ i e watcherBase,
    l !! i = Some e → is_create e = Some watcherBase →
    ∃ j watcherService, i = S j ∧ l !! j = Some (Watcher_dispose watcherService watcherBase).

Section Disposal.
Context `{PathModules}.

(** [_disposeFileSystem()]. *)
Definition _disposeFileSystem (c : Connection) (w : World)
  : Outcome unit * Connection * World :=
  match getConfig (fileService c) w with
  | (Ok config, w') => (Ok (), perform (RemoveRemote (getHostInfo config)) c, w')
  | (Throw e, w') => (Throw e, c, w')
  end.

(** [dispose()]. *)
Definition dispose (c : Connection) (w : World) : Outcome unit * Connection * World :=
  _disposeFileSystem (_disposeWatcher c) w.

(** What a caller does with the watcher and the remote of a connection. *)
Inductive ConnectionOp :=
| SetWatcherService (watcherService : WatcherService)
| GetRemoteFileSystem
| Dispose.

(** One call, an exception being left to the caller; [GetRemoteFileSystem]
    is [getRemoteFileSystem(getConfig())]. *)
Definition connection_step (cw : Connection * World) (op : ConnectionOp)
  : Connection * World :=
  match op with
  | SetWatcherService watcherService => (setWatcherService watcherService cw.1, cw.2)
  | GetRemoteFileSystem =>
      match getConfig (fileService cw.1) cw.2 with
      | (Ok config, w') => (getRemoteFileSystem config cw.1, w')
      | (Throw _, w') => (cw.1, w')
      end
  | Dispose => let r := dispose cw.1 cw.2 in (r.1.2, r.2)
  end.

Definition connection_exec (ops : list ConnectionOp) (cw : Connection * World)
  : Connection * World :=
  foldl connection_step cw ops.

(** What the calls of a connection keep: the File Service, the profile and
    the environment of the process, and that every remote was named by a
    resolution of the configuration under that profile and environment. *)
Definition connection_inv (fsv : FileService) (w0 : World)
    (cw : Connection * World) : Prop :=
  fileService cw.1 = fsv
  ∧ inputs cw.2 = inputs w0
  ∧ (∀ e h, e ∈ effects cw.1 → is_remote_effect e = Some h →
            ∃ w1 w1' sc, inputs w1 = inputs w0
                         ∧ getConfig fsv w1 = (Ok sc, w1')
                         ∧ h = getHostInfo sc)
  ∧ creates_follow_disposes (effects cw.1)
  ∧ (∀ e b, e ∈ effects cw.1 → is_create e = Some b →
            e = Watcher_create (match e with Watcher_create ws _ _ => ws | _ => None end)
                  (baseDir fsv) (rest (_config fsv) !! "watcher")).

End Disposal.

(* ===================================================================== *)
(** ** Lines of text *)
(* ===================================================================== *)

(** [lines.join(sep)]. *)
Fixpoint join_lines (sep : string) (lines : list string) : string :=
  match lines with
  | [] => EmptyString
  | [l] => l
  | l :: ls => l +:+ sep +:+ join_lines sep ls
  end.

(** Whether the character [c] occurs in [s]. *)
Fixpoint has_char (c : ascii) (s : string) : bool :=
  match s with
  | EmptyString => false
  | String c' s' => Ascii.eqb c c' || has_char c s'
  end.

Definition sep_CRLF : string := String Js.CR (String Js.LF EmptyString).
Definition sep_LF : string := String Js.LF EmptyString.

(* ===================================================================== *)
(** ** The invariant of the pending set *)
(* ===================================================================== *)

(** Every pending task is running in some scheduler, and every scheduler
    has the listener that takes a finished task off the pending set. *)
Definition pending_inv (w : Transfers) : Prop :=
  (∀ t, t ∈ _pendingTransferTasks (this w) →
        ∃ s sch, heap w !! s = Some sch ∧ t ∈ running sch)
  ∧ (∀ s sch, heap w !! s = Some sch → UntrackPending ∈ onTaskDone_listeners sch).

(** The heap is the same and the pending set has grown by tasks of [extra]
    at most. *)
Definition pending_within (extra : list TaskRef) (w w' : Transfers) : Prop :=
  heap w' = heap w
  ∧ ∀ t, t ∈ _pendingTransferTasks (this w') →
         t ∈ _pendingTransferTasks (this w) ∨ t ∈ extra.

(* ===================================================================== *)
(** ** Sample objects *)
(* ===================================================================== *)

Module Sample.

(** Path modules for running the resolver on examples: paths are taken as
    already normal, the relative path is what follows the root and one
    separator, and a pattern excludes the paths it is a prefix of. *)
Definition after_root (root p : string) : string :=
  if String.prefix root p
  then Js.slice1 (String.substring (String.length root)
                    (String.length p - String.length root) p)
  else p.

#[local] Instance modules : PathModules := {|
  path_normalize := λ p, p;
  path_relative := after_root;
  upath_relative := after_root;
  Ignore := list string;
  Ignore_from := λ patterns, patterns;
  ignores := λ patterns p, existsb (λ pat, String.prefix pat p) patterns
|}.

Definition config : FileServiceConfig :=
  {| agent := None;
     ignore := [];
     ignoreFile := None;
     remotePath := "/srv/www";
     profiles := None;
     rest := {[ "host" := JStr "example.org" ]} |}.

Definition profile (agent : option string) : Profile :=
  mkProfile agent None None (Some "/srv/dev") None ∅.

Definition with_agent (a : string) (c : FileServiceConfig) : FileServiceConfig :=
  mkConfig (Some a) (ignore c) (ignoreFile c) (remotePath c) (profiles c) (rest c).

Definition with_ignore (patterns : list string) (file : option string)
    (c : FileServiceConfig) : FileServiceConfig :=
  mkConfig (agent c) patterns file (remotePath c) (profiles c) (rest c).

Definition with_profiles (ps : gmap string Profile) (c : FileServiceConfig)
  : FileServiceConfig :=
  mkConfig (agent c) (ignore c) (ignoreFile c) (remotePath c) (Some ps) (rest c).

Definition service (c : FileServiceConfig) : FileService :=
  new_FileService 0 "/proj" "/proj" c.

Definition world : World :=
  mkWorld ∅ None ∅ ∅ [] [].

Definition with_profile (name : string) (w : World) : World :=
  mkWorld (ignoreFileCache w) (Some name) (process_env w) (disk w)
    (fs_calls w) (logged w).

Definition with_env (name value : string) (w : World) : World :=
  mkWorld (ignoreFileCache w) (state_profile w) (<[name := value]> (process_env w))
    (disk w) (fs_calls w) (logged w).

Definition with_file (path text : string) (w : World) : World :=
  mkWorld (ignoreFileCache w) (state_profile w) (process_env w)
    (<[path := File text]> (disk w)) (fs_calls w) (logged w).

Definition with_directory (path : string) (w : World) : World :=
  mkWorld (ignoreFileCache w) (state_profile w) (process_env w)
    (<[path := Unreadable EISDIR]> (disk w)) (fs_calls w) (logged w).

(** Operations on the sample service: a batch of one task run to its end,
    then a second scheduler that is left without task. *)
Definition ops : list Op :=
  [CreateTransferScheduler 2; Add 0 10; Run 0; TaskFinished 0 None 10;
   CreateTransferScheduler 1].

End Sample.

(** Sample objects for the host information and for the calls of a
    connection. *)
Module SampleHost.
Import Sample.

(** Two resolved configurations of one host that differ in the ignore
    predicate, in the remote path and in the concurrency. *)
Definition resolved_a : ServiceConfig :=
  mkConfig None None None "/srv/www" None {[ "host" := JStr "example.org" ]}.

Definition resolved_b : ServiceConfig :=
  mkConfig None (Some (λ _, true)) (Some "/proj/.sftpignore") "/srv/dev" None
    (<["concurrency" := JNum 8]> {[ "host" := JStr "example.org" ]}).


End SampleHost.

(* ===================================================================== *)
(** * Properties *)
(* ===================================================================== *)

(** ** Strings *)

Lemma prefix_append (s t : string) : String.prefix s (s +:+ t) = true.
Proof.
  induction s as [|a s IH]; simpl; [by destruct t|].
  destruct (ascii_dec a a); [exact IH | congruence].
Qed.

Lemma includes_unfold (sub s : string) :
  Js.includes sub s =
  String.prefix sub s
  || match s with
     | EmptyString => false
     | String _ s' => Js.includes sub s'
     end.
Proof. destruct s; reflexivity. Qed.

Lemma includes_append (pre sub post : string) :
  Js.includes sub (pre +:+ sub +:+ post) = true.
Proof.
  induction pre as [|a pre IH].
  - change (Js.includes sub (sub +:+ post) = true).
    rewrite includes_unfold, prefix_append. reflexivity.
  - change (Js.includes sub (String a (pre +:+ sub +:+ post)) = true).
    rewrite includes_unfold, IH. apply orb_true_r.
Qed.

Lemma startsWith_slice1 (c : ascii) (s : string) :
  Js.startsWith (String c EmptyString) s = true → s = String c (Js.slice1 s).
Proof.
  unfold Js.startsWith. destruct s as [|b s]; simpl; [done|].
  destruct (ascii_dec c b); [congruence | done].
Qed.

Lemma append_assoc (a b c : string) : (a +:+ b) +:+ c = a +:+ (b +:+ c).
Proof.
  induction a as [|x a IH]; [reflexivity|].
  change (String x ((a +:+ b) +:+ c) = String x (a +:+ (b +:+ c))).
  by rewrite IH.
Qed.

Lemma split_lines_nonempty (s : string) : Js.split_lines s ≠ [].
Proof.
  assert (Hc : ∀ c l, Js.cons_head c l ≠ []) by (intros c [|? ?]; done).
  destruct s as [|c s]; simpl; [done|].
  destruct (Ascii.eqb c Js.LF); [done|].
  destruct s as [|c' s]; [apply Hc|].
  destruct (Ascii.eqb c Js.CR && Ascii.eqb c' Js.LF); [done | apply Hc].
Qed.

Lemma guarded_list {A} (l : list A) : (if 0 <? length l then l else []) = l.
Proof. destruct l; reflexivity. Qed.

(** ** The ignore resolver *)

Ltac run_M :=
  unfold mbind, M_bind, mret, M_ret, throw, cache_get, cache_set, existsSync,
    readFileSync, getenv, app_state_profile, logger_info; simpl.

Lemma filesIgnored_no_file {A} (config : Config A (list string)) (w : World) :
  Js.truthy_opt (ignoreFile config) = false →
  filesIgnoredFromConfig config w = (Ok (ignore config), w).
Proof.
  intros Hf. unfold filesIgnoredFromConfig. rewrite guarded_list.
  destruct (ignoreFile config) as [f|]; [|done].
  simpl in Hf. rewrite Hf. done.
Qed.

Lemma filesIgnored_hit {A} (config : Config A (list string)) (w : World) path lines :
  ignoreFile config = Some path → Js.truthy path = true →
  ignoreFileCache w !! path = Some lines →
  filesIgnoredFromConfig config w = (Ok (ignore config ++ lines), w).
Proof.
  intros Hf Ht Hc. unfold filesIgnoredFromConfig. rewrite guarded_list, Hf, Ht.
  run_M. rewrite Hc. done.
Qed.

Lemma filesIgnored_read {A} (config : Config A (list string)) (w : World) path text :
  ignoreFile config = Some path → Js.truthy path = true →
  ignoreFileCache w !! path = None → disk w !! path = Some (File text) →
  filesIgnoredFromConfig config w =
    (Ok (ignore config ++ Js.split_lines text),
     mkWorld (<[path := Js.split_lines text]> (ignoreFileCache w))
       (state_profile w) (process_env w) (disk w)
       (fs_calls w ++ [ExistsSync path; ReadFileSync path]) (logged w)).
Proof.
  intros Hf Ht Hc Hd. unfold filesIgnoredFromConfig. rewrite guarded_list, Hf, Ht.
  run_M. rewrite Hc. simpl. rewrite Hd.
  rewrite bool_decide_eq_true_2 by eauto. simpl. rewrite Hd.
  by rewrite <- app_assoc.
Qed.

Lemma filesIgnored_missing {A} (config : Config A (list string)) (w : World) path :
  ignoreFile config = Some path → Js.truthy path = true →
  ignoreFileCache w !! path = None → disk w !! path = None →
  filesIgnoredFromConfig config w =
    (Throw (Error (notFoundMessage path)), record_fs (ExistsSync path) w).
Proof.
  intros Hf Ht Hc Hd. unfold filesIgnoredFromConfig. rewrite guarded_list, Hf, Ht.
  run_M. rewrite Hc. simpl. rewrite Hd.
  rewrite bool_decide_eq_false_2 by (intros [? ?]; done). done.
Qed.

Lemma filesIgnored_unreadable {A} (config : Config A (list string)) (w : World)
    path why :
  ignoreFile config = Some path → Js.truthy path = true →
  ignoreFileCache w !! path = None → disk w !! path = Some (Unreadable why) →
  filesIgnoredFromConfig config w =
    (Throw (Error (readErrorMessage why path)),
     mkWorld (ignoreFileCache w) (state_profile w) (process_env w) (disk w)
       (fs_calls w ++ [ExistsSync path; ReadFileSync path]) (logged w)).
Proof.
  intros Hf Ht Hc Hd. unfold filesIgnoredFromConfig. rewrite guarded_list, Hf, Ht.
  run_M. rewrite Hc. simpl. rewrite Hd.
  rewrite bool_decide_eq_true_2 by eauto. simpl. rewrite Hd.
  unfold record_fs. simpl. by rewrite <- app_assoc.
Qed.

(** The cases of a resolution with an ignore file. *)
Lemma filesIgnored_cases {A} (config : Config A (list string)) (w : World) :
  Js.truthy_opt (ignoreFile config) = false
  ∨ ∃ path, ignoreFile config = Some path ∧ Js.truthy path = true
            ∧ ((∃ lines, ignoreFileCache w !! path = Some lines)
               ∨ ignoreFileCache w !! path = None
                 ∧ ((∃ text, disk w !! path = Some (File text))
                    ∨ (∃ why, disk w !! path = Some (Unreadable why))
                    ∨ disk w !! path = None)).
Proof.
  destruct (Js.truthy_opt (ignoreFile config)) eqn:Hf; [|by left].
  destruct (ignoreFile config) as [path|] eqn:Hp; [simpl in Hf | done].
  right. exists path. split; [done|]. split; [done|].
  destruct (ignoreFileCache w !! path) as [lines|]; [eauto|]. right. split; [done|].
  destruct (disk w !! path) as [[text|why]|]; eauto.
Qed.

Ltac filesIgnored_split config w :=
  let path := fresh "p" in
  let Hp := fresh "Hp" in
  let Ht := fresh "Ht" in
  let Hc := fresh "Hcp" in
  let Hd := fresh "Hdp" in
  let l := fresh "l" in
  let text := fresh "text" in
  let why := fresh "why" in
  destruct (filesIgnored_cases config w)
    as [Ht|(path & Hp & Ht & [[l Hc]|[Hc [[text Hd]|[[why Hd]|Hd]]]])];
  [ rewrite (filesIgnored_no_file config w Ht) in *
  | rewrite (filesIgnored_hit config w path l Hp Ht Hc) in *
  | rewrite (filesIgnored_read config w path text Hp Ht Hc Hd) in *
  | rewrite (filesIgnored_unreadable config w path why Hp Ht Hc Hd) in *
  | rewrite (filesIgnored_missing config w path Hp Ht Hc Hd) in * ].

Lemma filesIgnored_outcome {A} (config : Config A (list string)) (w : World) :
  (∃ l w', filesIgnoredFromConfig config w = (Ok l, w'))
  ∨ (∃ path w', filesIgnoredFromConfig config w
                = (Throw (Error (notFoundMessage path)), w'))
  ∨ (∃ why path w', filesIgnoredFromConfig config w
                    = (Throw (Error (readErrorMessage why path)), w')).
Proof.
  filesIgnored_split config w; eauto 10.
Qed.

(** *** The cache of ignore files *)

Lemma reads_of_app (path : string) (a b : list FsCall) :
  reads_of path (a ++ b) = reads_of path a + reads_of path b.
Proof. unfold reads_of. by rewrite filter_app, length_app. Qed.

Lemma reads_of_read (path path' : string) :
  reads_of path [ExistsSync path'; ReadFileSync path']
  = if decide (path' = path) then 1 else 0.
Proof.
  unfold reads_of. rewrite filter_cons_False by done.
  destruct (decide (path' = path)) as [->|Hne].
  - by rewrite filter_cons_True.
  - rewrite filter_cons_False; [done | congruence].
Qed.

(** A resolution keeps the entries that the cache holds, and reads no file
    whose lines the cache holds. *)
Lemma filesIgnored_keeps {A} (config : Config A (list string)) (w : World)
    (path : string) (lines : list string) :
  ignoreFileCache w !! path = Some lines →
  ignoreFileCache (filesIgnoredFromConfig config w).2 !! path = Some lines
  ∧ reads_of path (fs_calls (filesIgnoredFromConfig config w).2)
    = reads_of path (fs_calls w).
Proof.
  intros Hc.
  filesIgnored_split config w; simpl; [done | done | | | ].
  - assert (p ≠ path) by congruence.
    rewrite lookup_insert_ne by done. split; [done|].
    rewrite reads_of_app, reads_of_read. case_decide; [done | lia].
  - assert (p ≠ path) by congruence. split; [done|].
    rewrite reads_of_app, reads_of_read. case_decide; [done | lia].
  - split; [done|].
    rewrite reads_of_app. unfold reads_of at 2.
    rewrite filter_cons_False by done. simpl. lia.
Qed.

Lemma resolve_all_keeps {A} (configs : list (Config A (list string))) (w : World)
    (path : string) (lines : list string) :
  ignoreFileCache w !! path = Some lines →
  ignoreFileCache (resolve_all configs w) !! path = Some lines
  ∧ reads_of path (fs_calls (resolve_all configs w)) = reads_of path (fs_calls w).
Proof.
  revert w. induction configs as [|c cs IH]; intros w Hc; [done|].
  destruct (filesIgnored_keeps c w path lines Hc) as [Hc' Hr'].
  destruct (IH _ Hc') as [IHc IHr]. simpl. split; [done|].
  by rewrite IHr.
Qed.

Lemma filesIgnored_fs_part {A} (config : Config A (list string)) (w w' : World) :
  fs_part w = fs_part w' →
  (filesIgnoredFromConfig config w).1 = (filesIgnoredFromConfig config w').1
  ∧ fs_part (filesIgnoredFromConfig config w).2
    = fs_part (filesIgnoredFromConfig config w').2.
Proof.
  intros [= Hc Hd Hf].
  destruct (filesIgnored_cases config w)
    as [Ht|(p & Hp & Ht & [[l Hcp]|[Hcp [[text Hdp]|[[why Hdp]|Hdp]]]])].
  - rewrite !filesIgnored_no_file by done. unfold fs_part; simpl; by rewrite Hc, Hd, Hf.
  - rewrite (filesIgnored_hit config w p l), (filesIgnored_hit config w' p l)
      by (done || by rewrite <- Hc).
    unfold fs_part; simpl; by rewrite Hc, Hd, Hf.
  - rewrite (filesIgnored_read config w p text),
      (filesIgnored_read config w' p text) by (done || by rewrite <- ?Hc, <- ?Hd).
    unfold fs_part; simpl; by rewrite Hc, Hd, Hf.
  - rewrite (filesIgnored_unreadable config w p why),
      (filesIgnored_unreadable config w' p why) by (done || by rewrite <- ?Hc, <- ?Hd).
    unfold fs_part; simpl; by rewrite Hc, Hd, Hf.
  - rewrite (filesIgnored_missing config w p),
      (filesIgnored_missing config w' p) by (done || by rewrite <- ?Hc, <- ?Hd).
    unfold fs_part; simpl; by rewrite Hc, Hd, Hf.
Qed.

Lemma filesIgnored_inputs {A} (config : Config A (list string)) (w : World) :
  inputs (filesIgnoredFromConfig config w).2 = inputs w.
Proof. filesIgnored_split config w; done. Qed.

Lemma filesIgnored_disk {A} (config : Config A (list string)) (w : World) :
  disk (filesIgnoredFromConfig config w).2 = disk w.
Proof. filesIgnored_split config w; done. Qed.

(** Resolving twice with the same configuration calls [readFileSync] at
    most once for a path that the disk does not hold as unreadable. *)
Lemma resolve_twice_reads {A} (config : Config A (list string)) (w : World) (path : string) :
  (∀ why, disk w !! path ≠ Some (Unreadable why)) →
  reads_of path (fs_calls (resolve_all [config; config] w))
  ≤ reads_of path (fs_calls w) + 1.
Proof.
  intros Hread. unfold resolve_all. simpl.
  destruct (filesIgnored_cases config w)
    as [Ht|(p & Hp & Ht & [[l Hcp]|[Hcp [[text Hdp]|[[why Hdp]|Hdp]]]])].
  - rewrite !filesIgnored_no_file by done. simpl. lia.
  - rewrite (filesIgnored_hit config w p l) by done. simpl.
    rewrite (filesIgnored_hit config w p l) by done. simpl. lia.
  - rewrite (filesIgnored_read config w p text) by done. simpl.
    erewrite filesIgnored_hit; [|done|done|simpl; apply lookup_insert_eq].
    simpl. rewrite reads_of_app, reads_of_read. case_decide; lia.
  - assert (p ≠ path) by (intros ->; by apply (Hread why)).
    rewrite (filesIgnored_unreadable config w p why) by done. simpl.
    rewrite (filesIgnored_unreadable config _ p why) by done. simpl.
    rewrite !reads_of_app, !reads_of_read. rewrite !decide_False by done. lia.
  - rewrite (filesIgnored_missing config w p) by done. simpl.
    rewrite (filesIgnored_missing config _ p) by done. simpl.
    rewrite !reads_of_app. unfold reads_of at 2 3.
    rewrite !filter_cons_False by done. simpl. lia.
Qed.

Section Resolution.
Context `{PathModules}.

Lemma createIgnoreFn_eq {A} (this : FileService) (config : Config A (list string))
    (w : World) :
  _createIgnoreFn this config w =
  match filesIgnoredFromConfig config w with
  | (Ok l, w') =>
      (Ok (if length l <=? 0 then None
           else Some (ignoreFunc (baseDir this) (remotePath config) (Ignore_from l))),
       w')
  | (Throw e, w') => (Throw e, w')
  end.
Proof.
  unfold _createIgnoreFn. run_M.
  destruct (filesIgnoredFromConfig config w) as [[l|e] w']; [|done].
  by destruct (length l <=? 0).
Qed.

Lemma getConfig_eq (this : FileService) (w : World) :
  getConfig this w =
  match mergedConfig this w with
  | (Ok copied, w1) =>
      match _createIgnoreFn this copied w1 with
      | (Ok f, w2) => (Ok (set_ignore f copied), w2)
      | (Throw e, w2) => (Throw e, w2)
      end
  | (Throw e, w1) => (Throw e, w1)
  end.
Proof.
  unfold getConfig, mergedConfig. run_M.
  destruct (resolveAgent _ _ w) as [[c1|e] w1]; [|done].
  destruct (applyProfile _ c1 w1) as [[c2|e] w2]; [|done].
  destruct (validate this _ c2 w2) as [[[]|e] w3]; [|done].
  done.
Qed.

Lemma ignoreFunc_root (localContext remoteContext : string) (ig : Ignore)
    (fsPath : string) :
  relativePath localContext remoteContext fsPath = EmptyString →
  ignoreFunc localContext remoteContext ig fsPath = false.
Proof. intros Hr. unfold ignoreFunc. rewrite Hr. reflexivity. Qed.

(** *** The blocks of [getConfig] *)

Lemma resolveAgent_world (config : FileServiceConfig) (copied : CopiedConfig) (w : World) :
  (resolveAgent config copied w).2 = w.
Proof.
  unfold resolveAgent. destruct (agent config) as [a|]; [|done].
  destruct (Js.truthy a && Js.startsWith "$" a); [|done].
  run_M. destruct (Object_get _ _) as [v|]; [|done]. by destruct (negb _).
Qed.

Lemma resolveAgent_env (config : FileServiceConfig) (copied : CopiedConfig) (w : World)
    (name : string) :
  agent config = Some ("$" +:+ name) →
  resolveAgent config copied w =
  match Object_get (process_env w) name with
  | Some v =>
      if truthy_value v then (Ok (set_agent v copied), w)
      else (Throw (Error (envNotFoundMessage name)), w)
  | None => (Throw (Error (envNotFoundMessage name)), w)
  end.
Proof.
  intros Ha. unfold resolveAgent. rewrite Ha.
  change (Js.truthy ("$" +:+ name)) with true.
  change (Js.slice1 ("$" +:+ name)) with name.
  unfold Js.startsWith. rewrite prefix_append. run_M.
  destruct (Object_get (process_env w) name) as [v|]; [|done].
  by destruct (truthy_value v).
Qed.

(** A read under a name that [Object.prototype] does not have finds the
    own property or nothing. *)
Lemma Object_get_own {A} (o : gmap string A) (key : string) :
  key ∉ Object_prototype → Object_get o key = Val <$> o !! key.
Proof.
  intros Hk. unfold Object_get. destruct (o !! key); [done|].
  by rewrite bool_decide_eq_false_2.
Qed.

Lemma Object_get_Val {A} (o : gmap string A) (key : string) (a : A) :
  Object_get o key = Some (Val a) ↔ o !! key = Some a.
Proof.
  unfold Object_get. destruct (o !! key); [naive_solver|].
  case_bool_decide; naive_solver.
Qed.

Lemma truthy_read_own (o : gmap string string) (key : string) :
  key ∉ Object_prototype →
  truthy_read (Object_get o key) = Js.truthy_opt (o !! key).
Proof. intros Hk. rewrite Object_get_own by done. by destruct (o !! key). Qed.

Lemma resolveAgent_plain (config : FileServiceConfig) (copied : CopiedConfig) (w : World) :
  match agent config with
  | Some a => Js.startsWith "$" a = false
  | None => True
  end →
  resolveAgent config copied w = (Ok copied, w).
Proof.
  unfold resolveAgent. destruct (agent config) as [a|]; [|done].
  intros ->. by rewrite andb_false_r.
Qed.

Lemma hasProfile_true (config : FileServiceConfig) :
  hasProfile config = true ↔ ∃ ps, profiles config = Some ps ∧ ps ≠ ∅.
Proof.
  unfold hasProfile, Object_keys. split.
  - destruct (profiles config) as [ps|]; [|done]. intros Hl.
    exists ps. split; [done|]. intros ->. by rewrite map_to_list_empty in Hl.
  - intros (ps & -> & Hne). rewrite length_fmap.
    apply Nat.ltb_lt. destruct (map_to_list ps) eqn:Hl; [|simpl; lia].
    by apply map_to_list_empty_iff in Hl.
Qed.

Lemma applyProfile_eq (config : FileServiceConfig) (copied : CopiedConfig) (w : World) :
  applyProfile config copied w =
  if hasProfile config && Js.truthy_opt (state_profile w) then
    let name := default EmptyString (state_profile w) in
    match appliedProfile config w with
    | Some profile => (Ok (Object_assign copied profile), log_line ("Using profile: " +:+ name) w)
    | None =>
        if bool_decide (name ∈ Object_prototype)
        then (Ok copied, log_line ("Using profile: " +:+ name) w)
        else (Throw (Error (unknownProfileMessage name)), log_line ("Using profile: " +:+ name) w)
    end
  else (Ok copied, w).
Proof.
  unfold applyProfile, appliedProfile, Object_get. run_M.
  destruct (hasProfile config && Js.truthy_opt (state_profile w)); [|done].
  destruct (default ∅ (profiles config) !! default EmptyString (state_profile w));
    [done|].
  by case_bool_decide.
Qed.

Lemma validate_eq (this : FileService) (config : FileServiceConfig) (copied : CopiedConfig) (w : World) :
  validate this config copied w =
  match _configValidator this with
  | Some configValidator =>
      match configValidator copied with
      | Some message =>
          (Throw (Error (validationMessage message
                           (hasProfile config && bool_decide (state_profile w = None)))), w)
      | None => (Ok (), w)
      end
  | None => (Ok (), w)
  end.
Proof.
  unfold validate. destruct (_configValidator this) as [v|]; [|done].
  by destruct (v copied).
Qed.

Lemma resolveAgent_cases (config : FileServiceConfig) (copied : CopiedConfig) (w : World) :
  (∃ name, agent config = Some ("$" +:+ name))
  ∨ resolveAgent config copied w = (Ok copied, w).
Proof.
  destruct (agent config) as [a|] eqn:Ha.
  - destruct (Js.startsWith "$" a) eqn:Hs.
    + left. exists (Js.slice1 a). f_equal. by apply startsWith_slice1.
    + right. apply resolveAgent_plain. by rewrite Ha.
  - right. apply resolveAgent_plain. by rewrite Ha.
Qed.

(** Every failure of [getConfig] is one of five, in the order of the
    blocks that throw. *)
Lemma mergedConfig_throw (this : FileService) (w w' : World) (e : Exn) :
  mergedConfig this w = (Throw e, w') →
  (∃ name, agent (_config this) = Some ("$" +:+ name)
           ∧ truthy_read (Object_get (process_env w) name) = false
           ∧ e = Error (envNotFoundMessage name))
  ∨ (∃ name, e = Error (unknownProfileMessage name))
  ∨ (∃ v message hint, _configValidator this = Some v
                       ∧ e = Error (validationMessage message hint)).
Proof.
  unfold mergedConfig. run_M.
  destruct (resolveAgent _ _ w) as [[c1|e1] w1] eqn:Hra.
  - assert (Hval : ∀ (c : CopiedConfig) (wc : World),
              match validate this (_config this) c wc with
              | (Ok _, w3) => (Ok c, w3)
              | (Throw e0, w3) => (Throw e0, w3)
              end = (Throw e, w') →
              ∃ v message hint, _configValidator this = Some v
                                ∧ e = Error (validationMessage message hint)).
    { intros c wc. rewrite validate_eq.
      destruct (_configValidator this) as [v|] eqn:Hv; [|done].
      destruct (v c) as [m|]; [|done]. intros [= <- <-]. eauto 10. }
    rewrite applyProfile_eq.
    destruct (hasProfile _ && Js.truthy_opt (state_profile w1)).
    + cbv zeta. destruct (appliedProfile _ w1) as [pr|].
      * intros Hg. right; right. by eapply Hval.
      * case_bool_decide.
        -- intros Hg. right; right. by eapply Hval.
        -- intros [= <- <-]. right; left. eauto.
    + intros Hg. right; right. by eapply Hval.
  - intros [= <- <-]. left.
    destruct (resolveAgent_cases (_config this)
                (delete_profiles (Object_copy (_config this))) w)
      as [[name Ha]|Hok]; [|congruence].
    exists name. rewrite (resolveAgent_env _ _ _ _ Ha) in Hra.
    destruct (Object_get (process_env w) name) as [v|]; simpl.
    + destruct (truthy_value v); simplify_eq; done.
    + simplify_eq; done.
Qed.

Lemma getConfig_throw (this : FileService) (w w' : World) (e : Exn) :
  getConfig this w = (Throw e, w') →
  (∃ name, agent (_config this) = Some ("$" +:+ name)
           ∧ truthy_read (Object_get (process_env w) name) = false
           ∧ e = Error (envNotFoundMessage name))
  ∨ (∃ name, e = Error (unknownProfileMessage name))
  ∨ (∃ v message hint, _configValidator this = Some v
                       ∧ e = Error (validationMessage message hint))
  ∨ (∃ path, e = Error (notFoundMessage path))
  ∨ (∃ why path, e = Error (readErrorMessage why path)).
Proof.
  rewrite getConfig_eq.
  destruct (mergedConfig this w) as [[copied|e1] w1] eqn:Hm.
  - rewrite createIgnoreFn_eq.
    destruct (filesIgnored_outcome copied w1)
      as [(l & w2 & ->)|[(p & w2 & ->)|(why & p & w2 & ->)]]; [done| |];
      intros [= <- <-]; eauto 10.
  - intros [= <- <-].
    destruct (mergedConfig_throw _ _ _ _ Hm) as [?|[?|?]]; eauto.
Qed.

(** *** The ignore predicate *)

(** C3: whenever configuration resolution attaches an ignore predicate,
    the predicate answers false on every path whose relative path under
    the matched root (the local base directory or the remote root) is
    empty, whatever the patterns are: the root is never excluded. *)
Theorem root_never_excluded (this : FileService) (w w' : World)
    (sc : ServiceConfig) (f : string → bool) (fsPath : string) :
  getConfig this w = (Ok sc, w') →
  ignore sc = Some f →
  relativePath (baseDir this) (remotePath sc) fsPath = EmptyString →
  f fsPath = false
  ∧ ∀ patterns : list string,
      ignoreFunc (baseDir this) (remotePath sc) (Ignore_from patterns) fsPath = false.
Proof.
  intros Hg Hf Hr. split; [|intros; by apply ignoreFunc_root].
  rewrite getConfig_eq in Hg.
  destruct (mergedConfig this w) as [[copied|e] w1]; [|done].
  rewrite createIgnoreFn_eq in Hg.
  destruct (filesIgnoredFromConfig copied w1) as [[l|e] w2]; [|done].
  injection Hg as <- <-. simpl in Hf, Hr.
  destruct (length l <=? 0); [done|]. injection Hf as <-.
  by apply ignoreFunc_root.
Qed.

(** C4: when the effective configuration has an empty [ignore] list and no
    [ignoreFile] (absent, or the empty string, which the code treats alike),
    [_createIgnoreFn] returns null and touches nothing, and [getConfig]
    returns the configuration with [ignore] set to null: no predicate at
    all, not a predicate that answers false. *)
Theorem no_patterns_no_predicate (this : FileService) (w0 w : World)
    (copied : CopiedConfig) :
  mergedConfig this w0 = (Ok copied, w) →
  ignore copied = [] →
  Js.truthy_opt (ignoreFile copied) = false →
  _createIgnoreFn this copied w = (Ok None, w)
  ∧ getConfig this w0 = (Ok (set_ignore None copied), w).
Proof.
  intros Hm Hi Hf.
  assert (Hc : _createIgnoreFn this copied w = (Ok None, w)).
  { rewrite createIgnoreFn_eq, filesIgnored_no_file by done. by rewrite Hi. }
  split; [done|]. by rewrite getConfig_eq, Hm, Hc.
Qed.

(** C5: when the effective configuration names an [ignoreFile] that is
    neither in the cache nor on disk, the resolver, [_createIgnoreFn] and
    [getConfig] all throw the error whose message contains the path of the
    file and the configuration key [ignoreFile]; the disk was asked once
    whether the file exists and the cache is unchanged. *)
Theorem missing_ignoreFile_throws (this : FileService) (w0 w : World)
    (copied : CopiedConfig) (path : string) :
  mergedConfig this w0 = (Ok copied, w) →
  ignoreFile copied = Some path →
  Js.truthy path = true →
  ignoreFileCache w !! path = None →
  disk w !! path = None →
  filesIgnoredFromConfig copied w
  = (Throw (Error (notFoundMessage path)), record_fs (ExistsSync path) w)
  ∧ _createIgnoreFn this copied w
    = (Throw (Error (notFoundMessage path)), record_fs (ExistsSync path) w)
  ∧ getConfig this w0
    = (Throw (Error (notFoundMessage path)), record_fs (ExistsSync path) w)
  ∧ Js.includes path (notFoundMessage path) = true
  ∧ Js.includes "ignoreFile" (notFoundMessage path) = true.
Proof.
  intros Hm Hf Ht Hc Hd.
  assert (H1 : filesIgnoredFromConfig copied w
               = (Throw (Error (notFoundMessage path)), record_fs (ExistsSync path) w))
    by by apply filesIgnored_missing.
  assert (H2 : _createIgnoreFn this copied w
               = (Throw (Error (notFoundMessage path)), record_fs (ExistsSync path) w))
    by by rewrite createIgnoreFn_eq, H1.
  repeat split; [done | done | by rewrite getConfig_eq, Hm, H2 | |].
  - apply (includes_append "File " path).
  - unfold notFoundMessage, Js.quoted.
    rewrite <- !append_assoc. rewrite append_assoc.
    apply (includes_append _ "ignoreFile" Js.dquote).
Qed.

(** *** Two resolutions in a row *)

Lemma mergedConfig_parts (this : FileService) (w : World) :
  fs_part (mergedConfig this w).2 = fs_part w
  ∧ inputs (mergedConfig this w).2 = inputs w.
Proof.
  unfold mergedConfig. run_M.
  pose proof (resolveAgent_world (_config this)
                (delete_profiles (Object_copy (_config this))) w) as Hw.
  destruct (resolveAgent _ _ w) as [[c1|e1] w1]; simpl in Hw; subst w1; [|done].
  assert (Hval : ∀ (c : CopiedConfig) (wc : World),
            (match validate this (_config this) c wc with
             | (Ok _, w3) => (Ok c, w3)
             | (Throw e0, w3) => (Throw e0, w3)
             end).2 = wc).
  { intros c wc. rewrite validate_eq.
    destruct (_configValidator this) as [v|]; [by destruct (v c) | done]. }
  rewrite applyProfile_eq.
  destruct (hasProfile _ && Js.truthy_opt (state_profile w)); cbv zeta.
  - destruct (appliedProfile _ w); [by rewrite Hval|].
    case_bool_decide; [by rewrite Hval | done].
  - by rewrite Hval.
Qed.

Lemma resolveAgent_inputs (config : FileServiceConfig) (copied : CopiedConfig)
    (w w' : World) :
  inputs w = inputs w' →
  (resolveAgent config copied w).1 = (resolveAgent config copied w').1.
Proof.
  intros [= Hp He].
  destruct (resolveAgent_cases config copied w) as [[name Ha]|Hok].
  - by rewrite (resolveAgent_env _ _ w name Ha), (resolveAgent_env _ _ w' name Ha), He;
      destruct (Object_get (process_env w') name) as [v|]; [destruct (truthy_value v)|].
  - destruct (resolveAgent_cases config copied w') as [[name Ha]|Hok'].
    + by rewrite (resolveAgent_env _ _ w name Ha), (resolveAgent_env _ _ w' name Ha), He;
        destruct (Object_get (process_env w') name) as [v|]; [destruct (truthy_value v)|].
    + by rewrite Hok, Hok'.
Qed.

Lemma mergedConfig_inputs (this : FileService) (w w' : World) :
  inputs w = inputs w' →
  (mergedConfig this w).1 = (mergedConfig this w').1.
Proof.
  intros Hin. pose proof Hin as [= Hp He]. unfold mergedConfig. run_M.
  pose proof (resolveAgent_world (_config this)
                (delete_profiles (Object_copy (_config this))) w) as Hw.
  pose proof (resolveAgent_world (_config this)
                (delete_profiles (Object_copy (_config this))) w') as Hw'.
  pose proof (resolveAgent_inputs (_config this)
                (delete_profiles (Object_copy (_config this))) w w' Hin) as Hra.
  destruct (resolveAgent _ _ w) as [[c1|e1] w1]; simpl in Hw; subst w1;
    destruct (resolveAgent _ _ w') as [[c1'|e1'] w1']; simpl in Hw'; subst w1';
    simpl in Hra; simplify_eq; [|done].
  assert (Hval : ∀ (c : CopiedConfig) (wa wb : World),
            state_profile wa = state_profile wb →
            (match validate this (_config this) c wa with
             | (Ok _, w3) => (Ok c, w3)
             | (Throw e0, w3) => (Throw e0, w3)
             end).1
            = (match validate this (_config this) c wb with
               | (Ok _, w3) => (Ok c, w3)
               | (Throw e0, w3) => (Throw e0, w3)
               end).1).
  { intros c wa wb Hab. rewrite !validate_eq, Hab.
    destruct (_configValidator this) as [v|]; [by destruct (v c) | done]. }
  rewrite !applyProfile_eq. unfold appliedProfile. rewrite Hp.
  destruct (hasProfile _ && Js.truthy_opt (state_profile w')); cbv zeta.
  - destruct (default ∅ (profiles (_config this)) !! _).
    + by apply Hval.
    + case_bool_decide; [by apply Hval | done].
  - by apply Hval.
Qed.

Lemma getConfig_parts (this : FileService) (w : World) :
  inputs (getConfig this w).2 = inputs w
  ∧ fs_part (getConfig this w).2
    = match (mergedConfig this w).1 with
      | Ok copied => fs_part (filesIgnoredFromConfig copied w).2
      | Throw _ => fs_part w
      end.
Proof.
  rewrite getConfig_eq.
  destruct (mergedConfig_parts this w) as [Hfs Hin].
  destruct (mergedConfig this w) as [[copied|e] w1]; simpl in *; [|done].
  rewrite createIgnoreFn_eq.
  pose proof (filesIgnored_inputs copied w1) as Hin1.
  destruct (filesIgnored_fs_part copied w1 w Hfs) as [_ Hfs1].
  destruct (filesIgnoredFromConfig copied w1) as [[l|e] w2]; simpl in *;
    by rewrite <- Hin, <- Hin1, <- Hfs1.
Qed.

Lemma getConfig_twice_reads (this : FileService) (w : World) (path : string) :
  (∀ why, disk w !! path ≠ Some (Unreadable why)) →
  reads_of path (fs_calls (getConfig this (getConfig this w).2).2)
  ≤ reads_of path (fs_calls w) + 1.
Proof.
  intros Hread.
  destruct (getConfig_parts this w) as [Hin1 Hfs1].
  destruct (getConfig_parts this (getConfig this w).2) as [_ Hfs2].
  rewrite <- (mergedConfig_inputs this w _ (eq_sym Hin1)) in Hfs2.
  destruct (mergedConfig this w).1 as [copied|e].
  - destruct (filesIgnored_fs_part copied _ _ Hfs1) as [_ Hfs].
    rewrite Hfs in Hfs2. injection Hfs2 as _ _ ->.
    by apply (resolve_twice_reads copied w path).
  - rewrite Hfs1 in Hfs2. injection Hfs2 as _ _ ->. lia.
Qed.

(** C6: for an [ignoreFile] that is on disk as a file, the first resolution
    answers with the lines of the file (those of the cache if it holds the
    path already) and leaves them in the cache under the path; on a miss it
    asks the disk once and reads the file once. Any later resolution for the
    same path, in any state whose cache still holds the entry, returns the
    cached lines and leaves the state as it is: no call of [fs] at all.
    Hence, however many resolutions follow the first, the file is read at
    most once; and two calls of [getConfig] in a row, by any File Service
    in any state, call [readFileSync] at most once for every path that is a
    file or is not there. *)
Theorem ignoreFile_read_at_most_once {A} (config : Config A (list string)) (w : World)
    (path text : string) :
  ignoreFile config = Some path →
  Js.truthy path = true →
  disk w !! path = Some (File text) →
  let lines := default (Js.split_lines text) (ignoreFileCache w !! path) in
  let w1 := (filesIgnoredFromConfig config w).2 in
  (filesIgnoredFromConfig config w).1 = Ok (ignore config ++ lines)
  ∧ ignoreFileCache w1 !! path = Some lines
  ∧ (ignoreFileCache w !! path = None →
     ignoreFileCache w1 = <[path := Js.split_lines text]> (ignoreFileCache w)
     ∧ fs_calls w1 = fs_calls w ++ [ExistsSync path; ReadFileSync path])
  ∧ (∀ (config' : Config A (list string)) (w2 : World),
       ignoreFile config' = Some path →
       ignoreFileCache w2 !! path = Some lines →
       filesIgnoredFromConfig config' w2 = (Ok (ignore config' ++ lines), w2))
  ∧ (∀ configs : list (Config A (list string)),
       ignoreFileCache (resolve_all (config :: configs) w) !! path = Some lines
       ∧ reads_of path (fs_calls (resolve_all (config :: configs) w))
         ≤ reads_of path (fs_calls w) + 1)
  ∧ (∀ (this : FileService) (w0 : World) (file : string),
       (∀ why, disk w0 !! file ≠ Some (Unreadable why)) →
       reads_of file (fs_calls (getConfig this (getConfig this w0).2).2)
       ≤ reads_of file (fs_calls w0) + 1).
Proof.
  intros Hf Ht Hd lines w1.
  cut ((filesIgnoredFromConfig config w).1 = Ok (ignore config ++ lines)
       ∧ ignoreFileCache w1 !! path = Some lines
       ∧ (ignoreFileCache w !! path = None →
          ignoreFileCache w1 = <[path := Js.split_lines text]> (ignoreFileCache w)
          ∧ fs_calls w1 = fs_calls w ++ [ExistsSync path; ReadFileSync path])
       ∧ (∀ (config' : Config A (list string)) (w2 : World),
            ignoreFile config' = Some path →
            ignoreFileCache w2 !! path = Some lines →
            filesIgnoredFromConfig config' w2 = (Ok (ignore config' ++ lines), w2))
       ∧ (∀ configs : list (Config A (list string)),
            ignoreFileCache (resolve_all (config :: configs) w) !! path = Some lines
            ∧ reads_of path (fs_calls (resolve_all (config :: configs) w))
              ≤ reads_of path (fs_calls w) + 1)).
  { intros (H1 & H2 & H3 & H4 & H5). repeat (split; [assumption|]).
    intros this w0 file Hfile. by apply getConfig_twice_reads. }
  assert (Hlater : ∀ (config' : Config A (list string)) (w2 : World),
             ignoreFile config' = Some path →
             ignoreFileCache w2 !! path = Some lines →
             filesIgnoredFromConfig config' w2 = (Ok (ignore config' ++ lines), w2))
    by (intros; by apply filesIgnored_hit with path).
  assert (Hcons : ∀ configs, resolve_all (config :: configs) w = resolve_all configs w1)
    by done.
  destruct (ignoreFileCache w !! path) as [l|] eqn:Hc.
  - assert (Hhit : filesIgnoredFromConfig config w = (Ok (ignore config ++ l), w))
      by by apply filesIgnored_hit with path.
    assert (Hw1 : w1 = w) by (unfold w1; by rewrite Hhit).
    split; [by rewrite Hhit|]. split; [by rewrite Hw1|].
    split; [done|]. split; [exact Hlater|].
    intros configs.
    destruct (resolve_all_keeps (config :: configs) w path l Hc) as [Hk Hr].
    split; [exact Hk | rewrite Hr; lia].
  - assert (Hread := filesIgnored_read config w path text Hf Ht Hc Hd).
    assert (Hc1 : ignoreFileCache w1 !! path = Some lines)
      by (unfold w1; rewrite Hread; simpl; by rewrite lookup_insert_eq).
    assert (Hcalls : fs_calls w1 = fs_calls w ++ [ExistsSync path; ReadFileSync path])
      by (unfold w1; by rewrite Hread).
    split; [by rewrite Hread|]. split; [exact Hc1|].
    split; [intros _; split; [unfold w1; by rewrite Hread | exact Hcalls]|].
    split; [exact Hlater|].
    intros configs. rewrite Hcons.
    destruct (resolve_all_keeps configs w1 path lines Hc1) as [Hk Hr].
    split; [exact Hk|].
    rewrite Hr, Hcalls, reads_of_app, reads_of_read, decide_True by done. lia.
Qed.

(** *** Profiles *)

Lemma resolveAgent_ok (config : FileServiceConfig) (copied copied0 : CopiedConfig) (w w' : World) :
  resolveAgent config copied w = (Ok copied0, w') →
  ignore copied0 = ignore copied ∧ ignoreFile copied0 = ignoreFile copied
  ∧ remotePath copied0 = remotePath copied ∧ profiles copied0 = profiles copied
  ∧ rest copied0 = rest copied.
Proof.
  unfold resolveAgent. destruct (agent config) as [a|]; [|by intros [= <- <-]].
  destruct (Js.truthy a && Js.startsWith "$" a); [|by intros [= <- <-]].
  run_M. destruct (Object_get _ _) as [v|]; [|done].
  destruct (negb _); [done|]. by intros [= <- <-].
Qed.

Lemma getConfig_ok (this : FileService) (w w' : World) (sc : ServiceConfig) :
  getConfig this w = (Ok sc, w') →
  ∃ copied w1, mergedConfig this w = (Ok copied, w1) ∧ sc = set_ignore (ignore sc) copied.
Proof.
  rewrite getConfig_eq.
  destruct (mergedConfig this w) as [[copied|e] w1]; [|done].
  destruct (_createIgnoreFn this copied w1) as [[f|e] w2]; [|done].
  intros [= <- <-]. by exists copied, w1.
Qed.

Lemma mergedConfig_ok (this : FileService) (w w1 : World) (copied : CopiedConfig) :
  mergedConfig this w = (Ok copied, w1) →
  ∃ copied0,
    resolveAgent (_config this) (delete_profiles (Object_copy (_config this))) w = (Ok copied0, w)
    ∧ copied = match appliedProfile (_config this) w with
               | Some profile => Object_assign copied0 profile
               | None => copied0
               end.
Proof.
  unfold mergedConfig. run_M.
  pose proof (resolveAgent_world (_config this) (delete_profiles (Object_copy (_config this))) w) as Hw.
  destruct (resolveAgent _ _ w) as [[copied0|e] w0]; [|done]. simpl in Hw. subst w0.
  rewrite applyProfile_eq.
  destruct (hasProfile _ && Js.truthy_opt (state_profile w)) eqn:Hh.
  - cbv zeta. destruct (appliedProfile _ w) as [pr|].
    + rewrite validate_eq.
      destruct (_configValidator this) as [v|]; [destruct (v _); [done|]|];
        intros [= <- <-]; by exists copied0.
    + case_bool_decide; [|done]. rewrite validate_eq.
      destruct (_configValidator this) as [v|]; [destruct (v _); [done|]|];
        intros [= <- <-]; by exists copied0.
  - assert (Hno : appliedProfile (_config this) w = None)
      by (unfold appliedProfile; by rewrite Hh).
    rewrite Hno, validate_eq.
    destruct (_configValidator this) as [v|]; [destruct (v _); [done|]|];
      intros [= <- <-]; by exists copied0.
Qed.

Lemma includes_quoted (pre name post : string) :
  Js.includes name (pre +:+ Js.quoted name +:+ post) = true.
Proof.
  unfold Js.quoted. rewrite !append_assoc, <- (append_assoc pre Js.dquote).
  apply includes_append.
Qed.

(** C7, as the code has it: with a non-empty [profiles] map, an active
    profile name that is a non-empty string, and the [agent] indirection
    passed, [getConfig] throws the error naming the profile when the map has
    no entry under the name and the name is none of those that the map
    inherits from [Object.prototype]; when the map has an entry under the
    name, the entry is laid over the copy of the base configuration, and
    every property of the result is the profile's where the profile has it
    and the base's otherwise. *)
Theorem active_profile_overlay (this : FileService) (w : World)
    (ps : gmap string Profile) (name : string) (copied0 : CopiedConfig) :
  profiles (_config this) = Some ps →
  ps ≠ ∅ →
  state_profile w = Some name →
  Js.truthy name = true →
  resolveAgent (_config this) (delete_profiles (Object_copy (_config this))) w
  = (Ok copied0, w) →
  match ps !! name with
  | None =>
      name ∉ Object_prototype →
      getConfig this w
      = (Throw (Error (unknownProfileMessage name)),
         log_line ("Using profile: " +:+ name) w)
      ∧ Js.includes name (unknownProfileMessage name) = true
  | Some profile =>
      applyProfile (_config this) copied0 w
      = (Ok (Object_assign copied0 profile), log_line ("Using profile: " +:+ name) w)
      ∧ ∀ (sc : ServiceConfig) (w' : World),
          getConfig this w = (Ok sc, w') →
          sc = set_ignore (ignore sc) (Object_assign copied0 profile)
          ∧ agent sc = match p_agent profile with
                       | Some a => Some (Val a)
                       | None => agent copied0
                       end
          ∧ ignoreFile sc = match p_ignoreFile profile with
                            | Some f => Some f
                            | None => ignoreFile (_config this)
                            end
          ∧ remotePath sc = match p_remotePath profile with
                            | Some r => r
                            | None => remotePath (_config this)
                            end
          ∧ profiles sc = p_profiles profile
          ∧ ∀ key : string,
              rest sc !! key = match p_rest profile !! key with
                               | Some v => Some v
                               | None => rest (_config this) !! key
                               end
  end.
Proof.
  intros Hps Hne Hact Ht Hra.
  assert (Hhas : hasProfile (_config this) && Js.truthy_opt (state_profile w) = true).
  { rewrite Hact. simpl. rewrite Ht, andb_true_r. apply hasProfile_true. eauto. }
  assert (Happ : appliedProfile (_config this) w = ps !! name).
  { unfold appliedProfile. by rewrite Hhas, Hps, Hact. }
  assert (Hstep := applyProfile_eq (_config this) copied0 w).
  rewrite Hhas, Happ, Hact in Hstep. simpl in Hstep.
  destruct (ps !! name) as [profile|] eqn:Hl.
  - split; [exact Hstep|]. intros sc w' Hg.
    destruct (getConfig_ok _ _ _ _ Hg) as (copied & w1 & Hm & Hsc).
    destruct (mergedConfig_ok _ _ _ _ Hm) as (c0 & Hra' & Hcopied).
    rewrite Hra in Hra'. injection Hra' as <-. rewrite Happ in Hcopied. subst copied.
    destruct (resolveAgent_ok _ _ _ _ _ Hra) as (_ & Hif & Hrp & Hpr & Hre).
    split; [exact Hsc|]. rewrite Hsc. simpl. rewrite Hif, Hrp, Hpr, Hre. simpl.
    repeat split; try by destruct profile as [[?|] ? [?|] [?|] [?|] ?].
    intros key. rewrite lookup_union.
    by destruct (p_rest profile !! key), (rest (_config this) !! key).
  - intros Hown. split; [|apply (includes_quoted "Unkown Profile ")].
    rewrite bool_decide_eq_false_2 in Hstep by done.
    rewrite getConfig_eq. unfold mergedConfig. run_M. rewrite Hra, Hstep. done.
Qed.

(** *** The agent *)

(** C8, as the code has it. For an [agent] that is [$] followed by a name
    that is none of those that [process.env] inherits from
    [Object.prototype], [getConfig] throws the error saying that the
    environment variable was not found exactly when the variable is unset or
    set to the empty string; and whenever [getConfig] returns, the variable
    has a value and the resolved [agent] is that value, unless the profile
    that was applied has an [agent] of its own, which then is the resolved
    one. An [agent] that does not start with [$] is resolved to itself, with
    the same exception. *)
Theorem agent_indirection (this : FileService) (w : World) :
  (∀ name : string,
     agent (_config this) = Some ("$" +:+ name) →
     name ∉ Object_prototype →
     ((∃ w', getConfig this w = (Throw (Error (envNotFoundMessage name)), w'))
      ↔ Js.truthy_opt (process_env w !! name) = false)
     ∧ ∀ (sc : ServiceConfig) (w' : World),
         getConfig this w = (Ok sc, w') →
         ∃ val, process_env w !! name = Some val
                ∧ agent sc = match appliedProfile (_config this) w ≫= p_agent with
                             | Some a => Some (Val a)
                             | None => Some (Val val)
                             end)
  ∧ (∀ a : string,
       agent (_config this) = Some a →
       Js.startsWith "$" a = false →
       ∀ (sc : ServiceConfig) (w' : World),
         getConfig this w = (Ok sc, w') →
         agent sc = match appliedProfile (_config this) w ≫= p_agent with
                    | Some a' => Some (Val a')
                    | None => Some (Val a)
                    end).
Proof.
  assert (Hag : ∀ copied0 sc w',
            resolveAgent (_config this) (delete_profiles (Object_copy (_config this))) w
            = (Ok copied0, w) →
            getConfig this w = (Ok sc, w') →
            agent sc = match appliedProfile (_config this) w ≫= p_agent with
                       | Some a' => Some (Val a')
                       | None => agent copied0
                       end).
  { intros copied0 sc w' Hra Hg.
    destruct (getConfig_ok _ _ _ _ Hg) as (copied & w1 & Hm & ->).
    destruct (mergedConfig_ok _ _ _ _ Hm) as (c0 & Hra' & ->).
    rewrite Hra in Hra'. injection Hra' as <-. simpl.
    destruct (appliedProfile _ w) as [pr|]; [|done]. simpl.
    by destruct (p_agent pr). }
  split.
  - intros name Ha Hown.
    pose proof (resolveAgent_env (_config this)
                  (delete_profiles (Object_copy (_config this))) w name Ha) as Hra.
    rewrite Object_get_own in Hra by done.
    split; [split|].
    + intros [w' Hg]. apply getConfig_throw in Hg
        as [(n & Ha' & Hf & He)|[(n & He)|[(v & m & h & _ & He)|[(p & He)|(why & p & He)]]]].
      * assert (n = name) as -> by (apply (inj (append "$")); congruence).
        by rewrite truthy_read_own in Hf.
      * discriminate He.
      * destruct h; discriminate He.
      * discriminate He.
      * destruct why; discriminate He.
    + intros Hf. exists w. rewrite getConfig_eq. unfold mergedConfig. run_M.
      rewrite Hra. by destruct (process_env w !! name) as [[|c v]|].
    + intros sc w' Hg.
      destruct (process_env w !! name) as [[|c v]|] eqn:He.
      * rewrite getConfig_eq in Hg. unfold mergedConfig in Hg. run_M.
        revert Hg. run_M. by rewrite Hra.
      * exists (String c v). split; [done|]. by apply (Hag _ _ _ Hra Hg).
      * rewrite getConfig_eq in Hg. unfold mergedConfig in Hg.
        revert Hg. run_M. by rewrite Hra.
  - intros a Ha Hs sc w' Hg.
    assert (Hra : resolveAgent (_config this)
                    (delete_profiles (Object_copy (_config this))) w
                  = (Ok (delete_profiles (Object_copy (_config this))), w))
      by (apply resolveAgent_plain; by rewrite Ha).
    rewrite (Hag _ _ _ Hra Hg). simpl. by rewrite Ha.
Qed.

(** *** The validator *)

(** C10: a File Service built by the constructor has no validator, and a
    File Service without validator validates nothing: the validation block
    of [getConfig] returns at once in every state, no failure of [getConfig]
    carries the message of a failed validation, and installing any validator
    on the same service either leaves the result of [getConfig] as it is or
    turns it into a validation failure. *)
Theorem no_validator_no_validation (this : FileService) (w : World) :
  _configValidator this = None →
  (∀ (last_id : nat) (baseDir workspace : string) (config : FileServiceConfig),
     _configValidator (new_FileService last_id baseDir workspace config) = None)
  ∧ (∀ (config : FileServiceConfig) (copied : CopiedConfig) (w1 : World),
       validate this config copied w1 = (Ok (), w1))
  ∧ (∀ (e : Exn) (w' : World),
       getConfig this w = (Throw e, w') →
       Js.startsWith "Config validation fail: " (message_of e) = false)
  ∧ (∀ v : ConfigValidator,
       getConfig (setConfigValidator v this) w = getConfig this w
       ∨ ∃ message hint w',
           getConfig (setConfigValidator v this) w
           = (Throw (Error (validationMessage message hint)), w')).
Proof.
  intros Hv. split; [done|]. split; [|split].
  - intros config copied w1. by rewrite validate_eq, Hv.
  - intros e w' Hg. apply getConfig_throw in Hg
      as [(n & _ & _ & ->)|[(n & ->)|[(v & m & h & Hv' & _)|[(p & ->)|(why & p & ->)]]]];
      [done | done | congruence | done | by destruct why].
  - intros v. rewrite !getConfig_eq. unfold mergedConfig. run_M.
    destruct (resolveAgent _ _ w) as [[c1|e1] w1]; [|by left].
    destruct (applyProfile _ c1 w1) as [[c2|e2] w2]; [|by left].
    rewrite !validate_eq, Hv. simpl.
    destruct (v c2) as [m|]; [right; eauto | by left].
Qed.

End Resolution.

(** ** The resolver on the sample objects *)

Module ResolverExamples.
Import Sample.
#[local] Existing Instance Sample.modules.

(** With the patterns [""] and ["build/"], the first of which matches the
    empty relative path, the base directory with a trailing separator is
    still not excluded. *)
Lemma root_never_excluded_witness :
  ignoreFunc "/proj" "/srv/www" [EmptyString; "build/"] "/proj/" = false
  ∧ ignores (Ignore_from [EmptyString; "build/"]) EmptyString = true.
Proof.
  split; [|reflexivity].
  eapply (root_never_excluded
            (service (with_ignore [EmptyString; "build/"] None config)) world).
  - reflexivity.
  - reflexivity.
  - reflexivity.
Defined.

Lemma no_patterns_no_predicate_witness :
  getConfig (service config) world = (Ok (set_ignore None (Object_copy config)), world).
Proof.
  eapply (no_patterns_no_predicate (service config) world world (Object_copy config));
    reflexivity.
Defined.

Lemma missing_ignoreFile_throws_witness :
  getConfig (service (with_ignore ["build/"] (Some "/proj/.sftpignore") config)) world
  = (Throw (Error (notFoundMessage "/proj/.sftpignore")),
     record_fs (ExistsSync "/proj/.sftpignore") world).
Proof.
  eapply (missing_ignoreFile_throws
            (service (with_ignore ["build/"] (Some "/proj/.sftpignore") config))
            world world _ "/proj/.sftpignore");
    reflexivity.
Defined.

(** A file of two lines, the first ended by a carriage return and a line
    feed: it is read once, by the first of three resolutions. *)
Lemma ignoreFile_read_at_most_once_witness :
  let c := with_ignore ["build/"] (Some "/proj/.sftpignore") config in
  let w := with_file "/proj/.sftpignore"
             ("node_modules" +:+ String Js.CR (String Js.LF "dist")) world in
  (filesIgnoredFromConfig c w).1 = Ok ["build/"; "node_modules"; "dist"]
  ∧ reads_of "/proj/.sftpignore" (fs_calls (resolve_all [c; c; c] w)) ≤ 0 + 1.
Proof.
  intros c w.
  pose proof (ignoreFile_read_at_most_once c w "/proj/.sftpignore"
                ("node_modules" +:+ String Js.CR (String Js.LF "dist"))
                eq_refl eq_refl eq_refl) as (H1 & _ & _ & _ & H5 & _).
  split; [exact H1 | exact (proj2 (H5 [c; c]))].
Defined.

(** An ignore file that is there and cannot be read, here a directory: the
    read fails, nothing is cached, and the second call of [getConfig] calls
    [readFileSync] again. *)
Example unreadable_ignoreFile_read_again :
  let this := service (with_ignore [] (Some "/proj/.sftpignore") config) in
  let w := with_directory "/proj/.sftpignore" world in
  (getConfig this w).1 = Throw (Error (readErrorMessage EISDIR "/proj/.sftpignore"))
  ∧ ignoreFileCache (getConfig this w).2 = ∅
  ∧ fs_calls (getConfig this w).2
    = [ExistsSync "/proj/.sftpignore"; ReadFileSync "/proj/.sftpignore"]
  ∧ reads_of "/proj/.sftpignore" (fs_calls (getConfig this (getConfig this w).2).2) = 2.
Proof. vm_compute. done. Qed.

Lemma active_profile_overlay_witness :
  getConfig (service (with_profiles {[ "dev" := profile None ]} config))
    (with_profile "prod" world)
  = (Throw (Error (unknownProfileMessage "prod")),
     log_line "Using profile: prod" (with_profile "prod" world))
  ∧ Js.includes "prod" (unknownProfileMessage "prod") = true.
Proof.
  assert (Hown : "prod" ∉ Object_prototype)
    by (apply (bool_decide_unpack _); vm_compute; exact I).
  exact (active_profile_overlay
           (service (with_profiles {[ "dev" := profile None ]} config))
           (with_profile "prod" world) {[ "dev" := profile None ]} "prod"
           (delete_profiles (Object_copy (with_profiles {[ "dev" := profile None ]} config)))
           eq_refl (singleton_non_empty _ _) eq_refl eq_refl eq_refl Hown).
Defined.

(** The overlay itself: the profile [dev] moves the remote root and leaves
    the host as it is. *)
Example overlay_dev :
  match (getConfig (service (with_profiles {[ "dev" := profile None ]} config))
           (with_profile "dev" world)).1 with
  | Ok sc => remotePath sc = "/srv/dev" ∧ rest sc !! "host" = Some (JStr "example.org")
  | Throw _ => False
  end.
Proof. vm_compute. done. Qed.

(** C7 as stated fails: the [agent] indirection comes first, and its error
    does not mention the profile; and an active profile name that is the
    empty string is no profile name at all for the code. *)
Lemma unknown_profile_behind_agent :
  (getConfig (service (with_profiles {[ "dev" := profile None ]} (with_agent "$SOCK" config)))
     (with_profile "prod" world)).1
  = Throw (Error (envNotFoundMessage "SOCK"))
  ∧ Js.includes "prod" (envNotFoundMessage "SOCK") = false
  ∧ ({[ "dev" := profile None ]} : gmap string Profile) !! "prod" = None
  ∧ succeeded (getConfig (service (with_profiles {[ "dev" := profile None ]} config))
                 (with_profile EmptyString world)).1 = true
  ∧ ({[ "dev" := profile None ]} : gmap string Profile) !! EmptyString = None.
Proof. vm_compute. done. Qed.

(** An active profile name that the map inherits from [Object.prototype]
    is not rejected, although the map has no profile of that name: the base
    configuration is returned. *)
Example inherited_profile_name_passes :
  ({[ "dev" := profile None ]} : gmap string Profile) !! "constructor" = None
  ∧ getConfig (service (with_profiles {[ "dev" := profile None ]} config))
      (with_profile "constructor" world)
    = (Ok (set_ignore None (Object_copy config)),
       log_line "Using profile: constructor" (with_profile "constructor" world)).
Proof. vm_compute. done. Qed.

Lemma agent_indirection_witness :
  (∃ w', getConfig (service (with_agent "$SOCK" config)) world
         = (Throw (Error (envNotFoundMessage "SOCK")), w'))
  ∧ match (getConfig (service (with_agent "$SOCK" config))
             (with_env "SOCK" "/tmp/agent.sock" world)).1 with
    | Ok sc => agent sc = Some (Val "/tmp/agent.sock")
    | Throw _ => False
    end.
Proof.
  assert (Hown : "SOCK" ∉ Object_prototype)
    by (apply (bool_decide_unpack _); vm_compute; exact I).
  split.
  - apply (proj1 (agent_indirection (service (with_agent "$SOCK" config)) world)
             "SOCK" eq_refl Hown).
    reflexivity.
  - assert (Hg : getConfig (service (with_agent "$SOCK" config))
                   (with_env "SOCK" "/tmp/agent.sock" world)
                 = (Ok (set_ignore None
                          (set_agent (Val "/tmp/agent.sock")
                             (Object_copy (with_agent "$SOCK" config)))),
                    with_env "SOCK" "/tmp/agent.sock" world))
      by (vm_compute; reflexivity).
    destruct (proj2 (proj1 (agent_indirection (service (with_agent "$SOCK" config))
                              (with_env "SOCK" "/tmp/agent.sock" world))
                       "SOCK" eq_refl Hown) _ _ Hg) as (val & Hval & Hag).
    rewrite Hg. injection Hval as <-. exact Hag.
Defined.

(** C8 as stated fails: a variable that is set to the empty string counts as
    not found, and the [agent] of the applied profile wins over the value of
    the variable. *)
Lemma agent_empty_or_overridden :
  process_env (with_env "SOCK" EmptyString world) !! "SOCK" = Some EmptyString
  ∧ (getConfig (service (with_agent "$SOCK" config))
       (with_env "SOCK" EmptyString world)).1
    = Throw (Error (envNotFoundMessage "SOCK"))
  ∧ match (getConfig
             (service (with_profiles {[ "dev" := profile (Some "pageant") ]}
                         (with_agent "$SOCK" config)))
             (with_profile "dev" (with_env "SOCK" "/tmp/agent.sock" world))).1 with
    | Ok sc => agent sc = Some (Val "pageant")
    | Throw _ => False
    end.
Proof. vm_compute. done. Qed.

(** A name that [process.env] inherits from [Object.prototype] is found
    although no such variable is set, and the resolved [agent] is the
    inherited function. *)
Example inherited_env_name_is_found :
  process_env world !! "toString" = None
  ∧ (getConfig (service (with_agent "$toString" config)) world).1
    = Ok (set_ignore None
            (set_agent (Proto "toString") (Object_copy (with_agent "$toString" config)))).
Proof. vm_compute. done. Qed.

(** The sample configuration passes when no validator is installed, and a
    validator that rejects it makes [getConfig] fail. *)
Lemma no_validator_no_validation_witness :
  validate (service config) config (Object_copy config) world = (Ok (), world)
  ∧ getConfig (setConfigValidator (λ _, Some "host is required") (service config)) world
    = (Throw (Error (validationMessage "host is required" false)), world)
  ∧ succeeded (getConfig (service config) world).1 = true.
Proof.
  split; [|split; reflexivity].
  apply (no_validator_no_validation (service config) world eq_refl).
Defined.

End ResolverExamples.

(* ===================================================================== *)
(** ** Transfers *)
(* ===================================================================== *)

(** *** [cancelTransferTasks] *)

Lemma forEach_cons {A} (f : A → Transfers → Transfers) (x : A) (xs : list A)
    (w : Transfers) :
  forEach f (x :: xs) w = forEach f xs (f x w).
Proof. reflexivity. Qed.

Lemma alter_all_lookup (f : Scheduler → Scheduler) (l : list SchedRef)
    (h : gmap SchedRef Scheduler) (s : SchedRef) :
  (∀ sch, f (f sch) = f sch) →
  foldl (λ h s, alter f s h) h l !! s
  = if bool_decide (s ∈ l) then f <$> h !! s else h !! s.
Proof.
  intros Hidem. revert h. induction l as [|a l IH]; intros h; [done|].
  simpl. rewrite IH. destruct (decide (s = a)) as [->|Hne].
  - rewrite lookup_alter_eq. rewrite (bool_decide_eq_true_2 (a ∈ a :: l)) by left.
    case_bool_decide; [|done].
    destruct (h !! a); simpl; by rewrite ?Hidem.
  - rewrite lookup_alter_ne by done.
    assert (Hiff : s ∈ l ↔ s ∈ a :: l) by (rewrite elem_of_cons; naive_solver).
    by rewrite (bool_decide_ext _ _ Hiff).
Qed.

Lemma forEach_empty_scheduler (l : list SchedRef) (w : Transfers) :
  forEach empty_scheduler l w
  = mkTransfers (this w) (foldl (λ h s, alter Scheduler_empty s h) (heap w) l)
      (promises w) (cancelled w) (actions w ++ (SchedulerEmptied <$> l)).
Proof.
  revert w. induction l as [|s l IH]; intros w.
  - destruct w. simpl. by rewrite app_nil_r.
  - rewrite forEach_cons, IH. simpl. by rewrite <- app_assoc.
Qed.

Lemma forEach_cancel (l : list TaskRef) (w : Transfers) :
  forEach TransferTask_cancel l w
  = mkTransfers (this w) (heap w) (promises w)
      (foldl (λ c t, Set_add t c) (cancelled w) l)
      (actions w ++ (TaskCancelled <$> l)).
Proof.
  revert w. induction l as [|t l IH]; intros w.
  - destruct w. simpl. by rewrite app_nil_r.
  - rewrite forEach_cons, IH. simpl. by rewrite <- app_assoc.
Qed.

Lemma Set_add_elem (t x : TaskRef) (c : list TaskRef) :
  x ∈ Set_add t c ↔ x = t ∨ x ∈ c.
Proof.
  unfold Set_add. case_bool_decide.
  - naive_solver.
  - rewrite elem_of_app, list_elem_of_singleton. naive_solver.
Qed.

Lemma Set_add_all_elem (l c : list TaskRef) (x : TaskRef) :
  x ∈ foldl (λ c t, Set_add t c) c l ↔ x ∈ l ∨ x ∈ c.
Proof.
  revert c. induction l as [|t l IH]; intros c; simpl.
  - rewrite elem_of_nil. naive_solver.
  - rewrite IH, Set_add_elem, elem_of_cons. naive_solver.
Qed.

Lemma cancelTransferTasks_eq (w : Transfers) :
  cancelTransferTasks w
  = mkTransfers (set_pending [] (set_schedulers [] (this w)))
      (foldl (λ h s, alter Scheduler_empty s h) (heap w) (_schedulers (this w)))
      (promises w)
      (foldl (λ c t, Set_add t c) (cancelled w) (_pendingTransferTasks (this w)))
      (actions w
       ++ (SchedulerEmptied <$> _schedulers (this w))
       ++ [SchedulersCleared]
       ++ (TaskCancelled <$> _pendingTransferTasks (this w))
       ++ [PendingCleared]).
Proof.
  unfold cancelTransferTasks. cbv zeta.
  rewrite forEach_empty_scheduler. simpl.
  rewrite forEach_cancel. unfold act, set_this. simpl.
  by rewrite <- !app_assoc.
Qed.

(** C1: [cancelTransferTasks] first empties the queue of every scheduler of
    the active-scheduler list, in the order of the list, then clears the
    list, and only then signals cancellation to every task of the pending
    set, in the order of the set, and clears the set. Afterwards both are
    empty; every scheduler that was listed has an empty queue and its running
    tasks untouched, the other schedulers are as they were, and the tasks
    signalled are those that were pending and those signalled before. *)
Theorem cancelTransferTasks_order (w : Transfers) :
  actions (cancelTransferTasks w)
  = actions w
    ++ (SchedulerEmptied <$> _schedulers (this w))
    ++ [SchedulersCleared]
    ++ (TaskCancelled <$> _pendingTransferTasks (this w))
    ++ [PendingCleared]
  ∧ _schedulers (this (cancelTransferTasks w)) = []
  ∧ _pendingTransferTasks (this (cancelTransferTasks w)) = []
  ∧ (∀ s : SchedRef,
       heap (cancelTransferTasks w) !! s
       = if bool_decide (s ∈ _schedulers (this w))
         then Scheduler_empty <$> heap w !! s
         else heap w !! s)
  ∧ (∀ t : TaskRef,
       t ∈ cancelled (cancelTransferTasks w)
       ↔ t ∈ _pendingTransferTasks (this w) ∨ t ∈ cancelled w).
Proof.
  rewrite cancelTransferTasks_eq. simpl.
  split; [done|]. split; [done|]. split; [done|]. split.
  - intros s. by apply alter_all_lookup.
  - intros t. apply Set_add_all_elem.
Qed.

(** *** What the bookkeeping of tasks leaves alone *)

Lemma same_view_trans (w1 w2 w3 : Transfers) :
  same_view w1 w2 → same_view w2 w3 → same_view w1 w3.
Proof. unfold same_view. intros (-> & -> & ->) (-> & -> & ->). done. Qed.

Lemma same_view_forEach {A} (f : A → Transfers → Transfers) (l : list A)
    (w : Transfers) :
  (∀ x w, same_view w (f x w)) → same_view w (forEach f l w).
Proof.
  intros Hf. revert w. induction l as [|x l IH]; intros w; [done|].
  rewrite forEach_cons. eapply same_view_trans; [apply Hf | apply IH].
Qed.

Lemma same_view_act (a : Action) (w : Transfers) : same_view w (act a w).
Proof. done. Qed.

Lemma idles_update (s : SchedRef) (f : Scheduler → Scheduler) (w : Transfers) :
  (∀ sch, onIdle_listeners (f sch) = onIdle_listeners sch) →
  idles (update_scheduler s f w) = idles w.
Proof.
  intros Hf. unfold idles. simpl. apply map_eq. intros i.
  rewrite !lookup_fmap. destruct (decide (i = s)) as [->|Hne].
  - rewrite lookup_alter_eq. destruct (heap w !! s); simpl; by rewrite ?Hf.
  - by rewrite lookup_alter_ne.
Qed.

Lemma same_view_update (s : SchedRef) (f : Scheduler → Scheduler) (w : Transfers) :
  (∀ sch, onIdle_listeners (f sch) = onIdle_listeners sch) →
  same_view w (update_scheduler s f w).
Proof. intros Hf. split; [done|]. split; [by apply idles_update | done]. Qed.

Lemma same_view_started (s : SchedRef) (task : TaskRef) (w : Transfers) :
  same_view w (notify_task_started s task w).
Proof. apply same_view_forEach. by intros []. Qed.

Lemma same_view_done (s : SchedRef) (err : option string) (task : TaskRef)
    (w : Transfers) :
  same_view w (notify_task_done s err task w).
Proof. apply same_view_forEach. by intros []. Qed.

Lemma same_view_dispatch (s : SchedRef) (w : Transfers) :
  same_view w (dispatch s w).
Proof.
  unfold dispatch. destruct (heap w !! s) as [sch|]; [|done].
  eapply same_view_trans; [by apply (same_view_update s Scheduler_dispatch)|].
  apply same_view_forEach. intros. apply same_view_started.
Qed.

Lemma same_view_add (s : SchedRef) (task : TaskRef) (w : Transfers) :
  same_view w (TransferScheduler_add s task w).
Proof.
  unfold TransferScheduler_add, Scheduler_add. cbv zeta.
  assert (Hu : same_view w (update_scheduler s (Scheduler_enqueue task) w))
    by by apply same_view_update.
  destruct (heap _ !! s) as [sch|]; [|done].
  destruct (autoStart sch || started sch); [|done].
  eapply same_view_trans; [exact Hu | apply same_view_dispatch].
Qed.

(** *** [isTransferring] *)

(** C9, as the code has it: [isTransferring()] is true exactly when the
    active-scheduler list is not empty. A scheduler is on the list from
    [createTransferScheduler] on, whether or not tasks were added to it, so
    the answer is true after the creation and between the calls of [add]
    that follow; it is false once [cancelTransferTasks] has cleared the
    list. *)
Theorem isTransferring_listed (w : Transfers) :
  (isTransferring (this w) = true ↔ _schedulers (this w) ≠ [])
  ∧ (∀ (concurrency : nat) (tasks : list TaskRef),
       let (handle, w1) := createTransferScheduler concurrency w in
       isTransferring (this (forEach (TransferScheduler_add handle) tasks w1)) = true)
  ∧ isTransferring (this (cancelTransferTasks w)) = false.
Proof.
  split; [|split].
  - unfold isTransferring. destruct (_schedulers (this w)); simpl; naive_solver.
  - intros concurrency tasks. simpl.
    match goal with
    | |- context [forEach ?f tasks ?w1] =>
        destruct (same_view_forEach f tasks w1) as (HL & _);
          [intros; apply same_view_add|]
    end.
    unfold isTransferring. rewrite HL. simpl. rewrite length_app. simpl.
    apply Nat.ltb_lt. lia.
  - by rewrite cancelTransferTasks_eq.
Qed.

(** *** [run] and the active-scheduler list *)

Lemma findIndex_None (s : SchedRef) (l : list SchedRef) :
  findIndex s l = None → s ∉ l.
Proof.
  induction l as [|a l IH]; simpl; [intros _; apply not_elem_of_nil|].
  case_bool_decide; [done|]. destruct (findIndex s l); [done|].
  intros _. rewrite elem_of_cons. naive_solver.
Qed.

Lemma without_spec (s : SchedRef) (l : list SchedRef) :
  NoDup l →
  NoDup (without s l) ∧ (s ∉ without s l) ∧ (∀ x, x ∈ without s l → x ∈ l).
Proof.
  unfold without. intros Hnd.
  destruct (findIndex s l) as [i|] eqn:Hi; [|by auto using findIndex_None].
  split; [exact (sublist_NoDup _ _ Hnd (sublist_delete _ _))|].
  split; [|intros x; apply list_elem_of_delete_inv].
  revert i Hi. induction Hnd as [|a l Ha Hnd IH]; intros i; simpl; [done|].
  case_bool_decide as Heq.
  - intros [= <-]. simpl. by subst a.
  - destruct (findIndex s l) as [j|]; [|done]. intros [= <-]. simpl.
    rewrite elem_of_cons. intros [->|Hin]; [done|]. by apply (IH j).
Qed.

Lemma schedulers_removeScheduler (s : SchedRef) (w : Transfers) :
  _schedulers (this (_removeScheduler s w)) = without s (_schedulers (this w))
  ∧ heap (_removeScheduler s w) = heap w
  ∧ promises (_removeScheduler s w) = promises w.
Proof.
  unfold _removeScheduler, without.
  by destruct (findIndex s (_schedulers (this w))).
Qed.

Lemma wf_same_view (w w' : Transfers) : same_view w w' → wf w → wf w'.
Proof. unfold wf. by intros (-> & -> & ->). Qed.

Lemma wf3_clear L I P : wf3 L I P → wf3 [] I P.
Proof.
  intros (_ & _ & HP & _ & HI). split; [constructor|].
  split; [by intros ? ?%elem_of_nil|]. split; [done|].
  split; [intros; apply not_elem_of_nil | done].
Qed.

Lemma wf3_store L I P (s : SchedRef) :
  wf3 L I P → I !! s = None → wf3 (L ++ [s]) (<[s := []]> I) P.
Proof.
  intros (HL & HLI & HP & HR & HI) Hs.
  assert (Hfresh : ∀ x, is_Some (I !! x) → x ≠ s)
    by (intros x [? Hx] ->; congruence).
  split; [|split; [|split; [|split]]].
  - apply NoDup_app. split; [done|]. split; [|apply NoDup_singleton].
    intros x Hx ->%list_elem_of_singleton. by apply (Hfresh s (HLI s Hx)).
  - intros x [Hx| ->%list_elem_of_singleton]%elem_of_app.
    + rewrite lookup_insert_ne; [by apply HLI|].
      intros <-. by apply (Hfresh s (HLI s Hx)).
    + by rewrite lookup_insert_eq.
  - intros p x b Hp. destruct (decide (s = x)) as [->|Hne].
    + by rewrite lookup_insert_eq.
    + rewrite lookup_insert_ne by done. by eapply HP.
  - intros p x Hp [Hx| ->%list_elem_of_singleton]%elem_of_app.
    + by eapply HR.
    + by apply (Hfresh s (HP _ _ _ Hp)).
  - intros x ls s' p Hx Hin. destruct (decide (s = x)) as [->|Hne].
    + rewrite lookup_insert_eq in Hx. injection Hx as <-.
      by apply elem_of_nil in Hin.
    + rewrite lookup_insert_ne in Hx by done. by eapply HI.
Qed.

Lemma wf3_promise L I P (s : SchedRef) :
  wf3 L I P → is_Some (I !! s) → wf3 L I (P ++ [(s, false)]).
Proof.
  intros (HL & HLI & HP & HR & HI) Hs.
  split; [done|]. split; [done|]. split; [|split].
  - intros p x b [[_ Hp]|[_ [= <- <-]]]%lookup_snoc_Some; [by eapply HP | done].
  - intros p x [[_ Hp]|[_ [=]]]%lookup_snoc_Some. by eapply HR.
  - intros x ls s' p Hx Hin. destruct (HI _ _ _ _ Hx Hin) as [b Hb].
    exists b. by apply lookup_app_l_Some.
Qed.

Lemma wf3_resolve L I P (s : SchedRef) (p : PromiseRef) (b : bool) :
  wf3 L I P → P !! p = Some (s, b) →
  wf3 (without s L) I (alter (λ sp, (sp.1, true)) p P).
Proof.
  intros (HL & HLI & HP & HR & HI) Hp.
  destruct (without_spec s L HL) as (HL' & Hs & Hsub).
  assert (Hlook : ∀ q x c, alter (λ sp : SchedRef * bool, (sp.1, true)) p P !! q = Some (x, c) →
            ∃ c', P !! q = Some (x, c') ∧ (c = true → c' = true ∨ (q = p ∧ x = s))).
  { intros q x c Hq. destruct (decide (p = q)) as [->|Hne].
    - rewrite list_lookup_alter_eq in Hq.
      destruct (P !! q) as [[s0 b0]|]; simplify_eq/=.
      exists b. split; [done|]. intros _. by right.
    - rewrite list_lookup_alter_ne in Hq by done. eauto. }
  split; [done|]. split; [auto|]. split; [|split].
  - intros q x c Hq. destruct (Hlook _ _ _ Hq) as (c' & Hq' & _). by eapply HP.
  - intros q x Hq. destruct (Hlook _ _ _ Hq) as (c' & Hq' & Hc).
    destruct (Hc eq_refl) as [->|[-> ->]]; [|done].
    intros Hx. by apply (HR _ _ Hq'), Hsub.
  - intros x ls s' q Hx Hin. destruct (HI _ _ _ _ Hx Hin) as [c Hc].
    destruct (decide (p = q)) as [->|Hne].
    + exists true. rewrite list_lookup_alter_eq.
      destruct (P !! q) as [[s0 b0]|]; by simplify_eq/=.
    + exists c. by rewrite list_lookup_alter_ne.
Qed.

Lemma wf3_onIdle L I P (s : SchedRef) (p : PromiseRef) (b : bool) :
  wf3 L I P → P !! p = Some (s, b) →
  wf3 L (alter (λ ls, ls ++ [ResolveRun s p]) s I) P.
Proof.
  intros (HL & HLI & HP & HR & HI) Hp.
  assert (Hsome : ∀ x, is_Some (I !! x) →
            is_Some (alter (λ ls, ls ++ [ResolveRun s p]) s I !! x)).
  { intros x [ls Hx]. destruct (decide (s = x)) as [->|Hne].
    - rewrite lookup_alter_eq, Hx. by eexists.
    - rewrite lookup_alter_ne by done. by eexists. }
  split; [done|]. split; [auto|]. split; [eauto|]. split; [done|].
  intros x ls s' q Hx Hin. destruct (decide (s = x)) as [->|Hne].
  - rewrite lookup_alter_eq in Hx. destruct (I !! x) as [ls0|] eqn:Hx0; [|done].
    injection Hx as <-. apply elem_of_app in Hin as [Hin|Hin%list_elem_of_singleton].
    + by eapply HI.
    + injection Hin as -> ->. eauto.
  - rewrite lookup_alter_ne in Hx by done. by eapply HI.
Qed.

Lemma idles_lookup (w : Transfers) (s : SchedRef) :
  idles w !! s = onIdle_listeners <$> heap w !! s.
Proof. apply lookup_fmap. Qed.

Lemma idles_is_Some (w : Transfers) (s : SchedRef) :
  is_Some (idles w !! s) ↔ is_Some (heap w !! s).
Proof. rewrite idles_lookup. apply fmap_is_Some. Qed.

Lemma wf_fresh (fsv : FileService) : wf (fresh_service fsv).
Proof.
  split; [constructor|]. split; [by intros ? ?%elem_of_nil|].
  split; [by intros ? ? ? ?|]. split; [by intros ? ? ?|].
  intros s ls s' p. unfold idles. simpl. by rewrite fmap_empty, lookup_empty.
Qed.

Lemma wf_create (concurrency : nat) (w : Transfers) :
  wf w → wf (createTransferScheduler concurrency w).2.
Proof.
  intros Hwf. unfold createTransferScheduler. cbv zeta.
  set (s := fresh (dom (heap w))).
  assert (Hs : heap w !! s = None) by (apply not_elem_of_dom, is_fresh).
  set (w1 := mkTransfers _ _ _ _ _).
  apply (wf_same_view (_storeScheduler s w1)).
  { eapply same_view_trans; by apply same_view_update. }
  unfold wf. simpl.
  replace (idles (_storeScheduler s w1)) with (<[s := []]> (idles w))
    by (unfold idles; simpl; by rewrite fmap_insert).
  apply wf3_store; [done|]. by rewrite idles_lookup, Hs.
Qed.

Lemma wf_cancel (w : Transfers) : wf w → wf (cancelTransferTasks w).
Proof.
  intros Hwf. rewrite cancelTransferTasks_eq. unfold wf. simpl.
  replace (idles _) with (idles w); [by eapply wf3_clear|].
  apply map_eq. intros s. rewrite !idles_lookup. simpl.
  rewrite alter_all_lookup by done.
  case_bool_decide; [|done]. by destruct (heap w !! s).
Qed.

Lemma wf_call_IdleListener (l : IdleListener) (w : Transfers) :
  wf w →
  (∀ s p, l = ResolveRun s p → ∃ b, promises w !! p = Some (s, b)) →
  wf (call_IdleListener l w)
  ∧ ∀ s p b, promises w !! p = Some (s, b) →
             ∃ b', promises (call_IdleListener l w) !! p = Some (s, b').
Proof.
  intros Hwf Hl. destruct l as [s p]. destruct (Hl s p eq_refl) as [b Hp].
  destruct (schedulers_removeScheduler s w) as (HL & HH & HP).
  split.
  - unfold wf, call_IdleListener, resolve, idles. simpl.
    rewrite HL, HH, HP. by eapply wf3_resolve.
  - intros s' q b' Hq. simpl. rewrite HP.
    destruct (decide (p = q)) as [->|Hne].
    + rewrite list_lookup_alter_eq, Hq. by eexists.
    + rewrite list_lookup_alter_ne by done. by eexists.
Qed.

Lemma wf_forEach_idle (ls : list IdleListener) (w : Transfers) :
  wf w →
  (∀ s p, ResolveRun s p ∈ ls → ∃ b, promises w !! p = Some (s, b)) →
  wf (forEach call_IdleListener ls w).
Proof.
  revert w. induction ls as [|l ls IH]; intros w Hwf Hls; [done|].
  rewrite forEach_cons.
  destruct (wf_call_IdleListener l w Hwf) as [Hwf' Hkeep].
  { intros s p ->. apply Hls. left. }
  apply IH; [done|]. intros s p Hin.
  destruct (Hls s p) as [b Hb]; [by right|]. by eapply Hkeep.
Qed.

Lemma wf_notify_idle (s : SchedRef) (w : Transfers) : wf w → wf (notify_idle s w).
Proof.
  intros Hwf. unfold notify_idle, listeners_of.
  destruct (heap w !! s) as [sch|] eqn:Hs; [|done].
  apply wf_forEach_idle; [done|]. intros s' p Hin.
  destruct Hwf as (_ & _ & _ & _ & HI). apply (HI s (onIdle_listeners sch)); [|done].
  by rewrite idles_lookup, Hs.
Qed.

Lemma wf_task_finished (s : SchedRef) (err : option string) (task : TaskRef)
    (w : Transfers) :
  wf w → wf (task_finished s err task w).
Proof.
  intros Hwf. unfold task_finished.
  destruct (heap w !! s) as [sch|]; [|done].
  case_bool_decide; [|done]. cbv zeta.
  set (w3 := dispatch s _).
  assert (Hwf3 : wf w3).
  { apply (wf_same_view w); [|done]. unfold w3.
    eapply same_view_trans; [by apply (same_view_update s (Scheduler_retire task))|].
    eapply same_view_trans; [apply same_view_done | apply same_view_dispatch]. }
  destruct (heap w3 !! s) as [sch'|]; [|done].
  destruct (is_idle sch'); [by apply wf_notify_idle | done].
Qed.

Lemma lookup_new_promise (P : list (SchedRef * bool)) (s : SchedRef) :
  (P ++ [(s, false)]) !! length P = Some (s, false).
Proof. by rewrite lookup_app_r, Nat.sub_diag by lia. Qed.

Lemma wf_run (s : SchedRef) (w : Transfers) :
  wf w → is_Some (heap w !! s) → wf (TransferScheduler_run s w).2.
Proof.
  intros Hwf Hs. unfold TransferScheduler_run. cbv zeta.
  set (w1 := mkTransfers _ _ (promises w ++ _) _ _).
  assert (Hwf1 : wf w1)
    by (apply wf3_promise; [done | by apply idles_is_Some]).
  destruct (TransferScheduler_size s w1 <=? 0); simpl.
  - destruct (schedulers_removeScheduler s w1) as (HL & HH & HP).
    unfold wf, resolve, idles. simpl. rewrite HL, HH, HP.
    eapply wf3_resolve; [done | apply lookup_new_promise].
  - set (w2 := update_scheduler s _ w1).
    apply (wf_same_view w2).
    { unfold Scheduler_start.
      eapply same_view_trans; [|apply same_view_dispatch].
      eapply same_view_trans; [by apply (same_view_update s Scheduler_set_started)|].
      apply same_view_act. }
    unfold wf. simpl.
    replace (idles w2)
      with (alter (λ ls, ls ++ [ResolveRun s (length (promises w))]) s (idles w1)).
    + eapply wf3_onIdle; [done | apply lookup_new_promise].
    + apply map_eq. intros i. unfold w2. rewrite !idles_lookup. simpl.
      destruct (decide (s = i)) as [->|Hne].
      * rewrite !lookup_alter_eq, idles_lookup.
        change (heap w1) with (heap w). by destruct (heap w !! i).
      * by rewrite !lookup_alter_ne, idles_lookup.
Qed.

Lemma wf_step (w : Transfers) (op : Op) : wf w → wf (step w op).
Proof.
  intros Hwf. destruct op as [c|s t|s|s err t|]; simpl.
  - by apply wf_create.
  - case_bool_decide; [|done].
    apply (wf_same_view w); [apply same_view_add | done].
  - case_bool_decide; [|done]. by apply wf_run.
  - by apply wf_task_finished.
  - by apply wf_cancel.
Qed.

Lemma wf_exec (ops : list Op) (w : Transfers) : wf w → wf (exec ops w).
Proof.
  revert w. induction ops as [|op ops IH]; intros w Hwf; [done|].
  apply IH. by apply wf_step.
Qed.

Lemma findIndex_elem (s : SchedRef) (l : list SchedRef) :
  s ∈ l → is_Some (findIndex s l).
Proof.
  intros Hin. destruct (findIndex s l) eqn:Hf; [by eexists|].
  by apply findIndex_None in Hf.
Qed.

Lemma actions_removeScheduler (s : SchedRef) (w : Transfers) :
  actions (_removeScheduler s w)
  = actions w ++ (if bool_decide (s ∈ _schedulers (this w))
                  then [SchedulerRemoved s] else []).
Proof.
  unfold _removeScheduler. case_bool_decide as Hin.
  - by destruct (findIndex_elem _ _ Hin) as [i ->].
  - destruct (findIndex s (_schedulers (this w))) as [i|] eqn:Hf.
    + exfalso. apply Hin. clear Hin. revert i Hf.
      induction (_schedulers (this w)) as [|a l IH]; intros i; simpl; [done|].
      case_bool_decide as Heq; [subst; intros _; left|].
      destruct (findIndex s l) as [j|]; [|done]. intros _. right. by apply (IH j).
    + by rewrite app_nil_r.
Qed.

(** C2: in every state that a File Service can reach, [run()] on a handle
    whose scheduler holds no task resolves its promise at once and leaves
    the scheduler object as it is (not started, no listener added), having
    taken the scheduler off the active-scheduler list; and in every such
    state, the scheduler of every resolved [run()] promise is off the
    list. *)
Theorem run_resolves_after_removal (fsv : FileService) (ops : list Op) :
  let w := exec ops (fresh_service fsv) in
  (∀ scheduler : SchedRef,
     is_Some (heap w !! scheduler) →
     TransferScheduler_size scheduler w = 0 →
     let pw := TransferScheduler_run scheduler w in
     is_resolved pw.1 pw.2 = true
     ∧ scheduler_of pw.1 pw.2 = Some scheduler
     ∧ heap pw.2 = heap w
     ∧ actions pw.2
       = actions w
         ++ (if bool_decide (scheduler ∈ _schedulers (this w))
             then [SchedulerRemoved scheduler] else [])
         ++ [Resolved pw.1]
     ∧ scheduler ∉ _schedulers (this pw.2))
  ∧ (∀ (p : PromiseRef) (scheduler : SchedRef),
       scheduler_of p w = Some scheduler →
       is_resolved p w = true →
       scheduler ∉ _schedulers (this w)).
Proof.
  intros w.
  assert (Hwf : wf w) by apply wf_exec, wf_fresh.
  split.
  - intros s Hs Hsize pw. subst pw. unfold TransferScheduler_run. cbv zeta.
    set (w1 := mkTransfers _ _ (promises w ++ _) _ _).
    change (TransferScheduler_size s w1) with (TransferScheduler_size s w).
    rewrite Hsize. simpl.
    destruct (schedulers_removeScheduler s w1) as (HL & HH & HP).
    unfold is_resolved, scheduler_of, resolve. simpl.
    rewrite HL, HH, HP, actions_removeScheduler. simpl.
    rewrite list_lookup_alter_eq, lookup_new_promise. simpl.
    split; [done|]. split; [done|]. split; [done|].
    split; [by rewrite <- app_assoc|].
    destruct Hwf as (Hnd & _). by apply without_spec.
  - intros p s Hs Hr. destruct Hwf as (_ & _ & _ & HR & _).
    apply (HR p). unfold scheduler_of in Hs. unfold is_resolved in Hr.
    destruct (promises w !! p) as [[s' b]|]; simplify_eq/=. done.
Qed.

(** *** The transfers of the sample service *)

Module TransferExamples.
Import Sample.

(** A batch of three tasks with concurrency 2 whose second task fails: the
    promise of [run()] resolves when the last task is done, after the
    scheduler has left the list. *)
Example batch_runs_to_idle :
  let w := exec [CreateTransferScheduler 2; Add 0 10; Add 0 11; Add 0 12; Run 0;
                 TaskFinished 0 None 10; TaskFinished 0 (Some "boom") 11;
                 TaskFinished 0 None 12]
             (fresh_service (service config)) in
  actions w
  = [SchedulerStored 0; SchedulerStarted 0;
     Emitted_BEFORE_TRANSFER 10; Emitted_BEFORE_TRANSFER 11;
     Emitted_AFTER_TRANSFER None 10; Emitted_BEFORE_TRANSFER 12;
     Emitted_AFTER_TRANSFER (Some "boom") 11; Emitted_AFTER_TRANSFER None 12;
     SchedulerRemoved 0; Resolved 0]
  ∧ is_resolved 0 w = true
  ∧ isTransferring (this w) = false.
Proof. vm_compute. done. Qed.

(** Cancelling in the middle of a batch: the queued task never starts, and
    the promise of [run()] resolves once the two running tasks are done. *)
Example cancel_then_idle :
  let w := exec [CreateTransferScheduler 2; Add 0 10; Add 0 11; Add 0 12; Run 0;
                 CancelTransferTasks;
                 TaskFinished 0 None 10; TaskFinished 0 None 11]
             (fresh_service (service config)) in
  actions w
  = [SchedulerStored 0; SchedulerStarted 0;
     Emitted_BEFORE_TRANSFER 10; Emitted_BEFORE_TRANSFER 11;
     SchedulerEmptied 0; SchedulersCleared;
     TaskCancelled 10; TaskCancelled 11; PendingCleared;
     Emitted_AFTER_TRANSFER None 10; Emitted_AFTER_TRANSFER None 11;
     Resolved 0]
  ∧ is_resolved 0 w = true.
Proof. vm_compute. done. Qed.

Lemma run_resolves_after_removal_witness :
  (is_resolved 1 (TransferScheduler_run 1 (exec ops (fresh_service (service config)))).2 = true
   ∧ 1 ∉ _schedulers (this (TransferScheduler_run 1 (exec ops (fresh_service (service config)))).2))
  ∧ is_resolved 0 (exec ops (fresh_service (service config))) = true
  ∧ 0 ∉ _schedulers (this (exec ops (fresh_service (service config)))).
Proof.
  destruct (run_resolves_after_removal (service config) ops) as [Hrun Hres].
  split; [|split; [reflexivity|]].
  - destruct (Hrun 1) as (H1 & _ & _ & _ & H5); [by eexists | reflexivity | done].
  - apply (Hres 0 0); reflexivity.
Defined.

(** C9 as stated fails: right after [createTransferScheduler], with no
    task added, [isTransferring()] is true although no scheduler holds a
    queued or a running task. *)
Lemma isTransferring_without_tasks :
  isTransferring (this (createTransferScheduler 2 (fresh_service (service config))).2) = true
  ∧ holds_tasks (createTransferScheduler 2 (fresh_service (service config))).2 = false
  ∧ TransferScheduler_size 0 (createTransferScheduler 2 (fresh_service (service config))).2 = 0.
Proof. vm_compute. done. Qed.

End TransferExamples.

(* ===================================================================== *)
(** ** Host information *)
(* ===================================================================== *)

Lemma Object_keys_elem {A} (o : gmap string A) (key : string) :
  key ∈ Object_keys o ↔ is_Some (o !! key).
Proof.
  unfold Object_keys. rewrite list_elem_of_fmap. split.
  - intros ([k v] & -> & Hin). apply elem_of_map_to_list in Hin. by eexists.
  - intros [v Hv]. exists (key, v). split; [done|]. by apply elem_of_map_to_list.
Qed.

Lemma get_property_other (config : ServiceConfig) (key : string) :
  key ∉ field_names → get_property config key = PJson <$> rest config !! key.
Proof.
  intros Hk. unfold get_property, field_names in *.
  repeat (case_bool_decide as Heq;
          [exfalso; apply Hk; rewrite Heq; repeat constructor | clear Heq]).
  done.
Qed.

Lemma own_keys_elem (config : ServiceConfig) (key : string) :
  key ∈ own_keys config ↔ is_Some (get_property config key).
Proof.
  unfold own_keys. rewrite elem_of_app, !list_elem_of_filter, Object_keys_elem.
  destruct (decide (key ∈ field_names)) as [Hin|Hout].
  - naive_solver.
  - rewrite (get_property_other _ _ Hout), fmap_is_Some. naive_solver.
Qed.

Lemma copy_all_absent (config : ServiceConfig) (l : list string)
    (obj : gmap string PropValue) (key : string) :
  key ∉ l → foldl (copy_option config) obj l !! key = obj !! key.
Proof.
  revert obj. induction l as [|a l IH]; intros obj Hk; [done|].
  apply not_elem_of_cons in Hk as [Hne Hk]. simpl. rewrite IH by done.
  unfold copy_option. case_bool_decide; [|done].
  destruct (get_property config a); [|done]. by rewrite lookup_insert_ne.
Qed.

Lemma copy_all_ignored (config : ServiceConfig) (l : list string)
    (obj : gmap string PropValue) (key : string) :
  key ∈ ignoreOptions → foldl (copy_option config) obj l !! key = obj !! key.
Proof.
  intros Hk. revert obj. induction l as [|a l IH]; intros obj; [done|].
  simpl. rewrite IH. unfold copy_option. case_bool_decide as Ha; [|done].
  destruct (get_property config a); [|done].
  rewrite lookup_insert_ne; [done|]. by intros ->.
Qed.

Lemma copy_all_kept (config : ServiceConfig) (l : list string)
    (obj : gmap string PropValue) (key : string) (v : PropValue) :
  key ∉ ignoreOptions → get_property config key = Some v →
  key ∈ l ∨ obj !! key = Some v →
  foldl (copy_option config) obj l !! key = Some v.
Proof.
  intros Hk Hv. revert obj. induction l as [|a l IH]; intros obj Hin.
  - destruct Hin as [Hin|Hin]; [by apply elem_of_nil in Hin | done].
  - simpl. apply IH. destruct (decide (a = key)) as [->|Hne].
    + right. unfold copy_option. rewrite bool_decide_eq_true_2, Hv by done.
      by rewrite lookup_insert_eq.
    + destruct Hin as [Hin|Hin].
      * apply elem_of_cons in Hin as [->|Hin]; [done | by left].
      * right. unfold copy_option. case_bool_decide; [|done].
        destruct (get_property config a); [|done]. by rewrite lookup_insert_ne.
Qed.

Lemma getHostInfo_lookup_eq (config : ServiceConfig) (key : string) :
  getHostInfo config !! key
  = if bool_decide (key ∈ ignoreOptions) then None else get_property config key.
Proof.
  unfold getHostInfo. case_bool_decide as Hk.
  - by rewrite copy_all_ignored.
  - destruct (get_property config key) as [v|] eqn:Hv.
    + apply copy_all_kept; [done | done | left]. apply own_keys_elem. by rewrite Hv.
    + rewrite copy_all_absent; [done|]. rewrite own_keys_elem, Hv. by intros [? ?].
Qed.

(** X1: the object that [getHostInfo] returns has none of the ten
    local-only options and, under every other name, the value that the
    configuration has under that name (nothing where it has none). *)
Theorem getHostInfo_strips_local_options (config : ServiceConfig) (key : string) :
  (key ∈ ignoreOptions → getHostInfo config !! key = None)
  ∧ (key ∉ ignoreOptions → getHostInfo config !! key = get_property config key).
Proof.
  rewrite getHostInfo_lookup_eq. split; intros Hk.
  - by rewrite bool_decide_eq_true_2.
  - by rewrite bool_decide_eq_false_2.
Qed.

Lemma getHostInfo_ext (c1 c2 : ServiceConfig) :
  agent c1 = agent c2 →
  profiles c1 = profiles c2 →
  (∀ key, key ∉ ignoreOptions → rest c1 !! key = rest c2 !! key) →
  getHostInfo c1 = getHostInfo c2.
Proof.
  intros Ha Hp Hr. apply map_eq. intros key. rewrite !getHostInfo_lookup_eq.
  case_bool_decide as Hk; [done|]. unfold get_property. rewrite Ha, Hp.
  repeat (case_bool_decide as Heq;
          [first [done | exfalso; apply Hk; rewrite Heq; unfold ignoreOptions;
                         repeat constructor] | clear Heq]).
  by rewrite Hr.
Qed.

(** X2: the host information depends on the configuration only through
    [agent], [profiles] and the properties that are not local-only options:
    two resolved configurations that agree on these have the same host
    information, whatever their ignore predicates, ignore files, remote
    paths, watcher, concurrency or sync options are. *)
Theorem getHostInfo_local_options_irrelevant (c1 c2 : ServiceConfig) :
  agent c1 = agent c2 →
  profiles c1 = profiles c2 →
  (∀ key, key ∉ ignoreOptions → rest c1 !! key = rest c2 !! key) →
  getHostInfo c1 = getHostInfo c2.
Proof. apply getHostInfo_ext. Qed.

(* ===================================================================== *)
(** ** The watcher and the remote file system *)
(* ===================================================================== *)

Lemma creates_follow_disposes_snoc (l : list Effect) (e : Effect) :
  creates_follow_disposes l → is_create e = None →
  creates_follow_disposes (l ++ [e]).
Proof.
  intros Hl He i e' b Hi Hc.
  apply lookup_snoc_Some in Hi as [[Hlt Hi]|[_ <-]]; [|congruence].
  destruct (Hl i e' b Hi Hc) as (j & ws & -> & Hj).
  exists j, ws. split; [done|]. by apply lookup_app_l_Some.
Qed.

Lemma creates_follow_disposes_pair (l : list Effect) ws ws' b cfg :
  creates_follow_disposes l →
  creates_follow_disposes ((l ++ [Watcher_dispose ws b]) ++ [Watcher_create ws' b cfg]).
Proof.
  intros Hl i e' b' Hi Hc.
  apply lookup_snoc_Some in Hi as [[Hlt Hi]|[Hlen <-]].
  - destruct (creates_follow_disposes_snoc l (Watcher_dispose ws b) Hl eq_refl
                i e' b' Hi Hc) as (j & ws0 & -> & Hj).
    exists j, ws0. split; [done|]. by apply lookup_app_l_Some.
  - injection Hc as <-. rewrite length_app in Hlen. simpl in Hlen.
    exists (length l), ws. split; [lia|].
    apply lookup_app_l_Some. by rewrite lookup_app_r, Nat.sub_diag by lia.
Qed.

Section DisposalProperties.
Context `{PathModules}.

Lemma dispose_eq (c : Connection) (w : World) :
  dispose c w
  = (match (getConfig (fileService c) w).1 with
     | Ok _ => Ok ()
     | Throw e => Throw e
     end,
     mkConnection (fileService c) (_watcherService c)
       (effects c
        ++ Watcher_dispose (_watcherService c) (baseDir (fileService c))
           :: match (getConfig (fileService c) w).1 with
              | Ok config => [RemoveRemote (getHostInfo config)]
              | Throw _ => []
              end),
     (getConfig (fileService c) w).2).
Proof.
  unfold dispose, _disposeFileSystem, _disposeWatcher, perform. simpl.
  destruct (getConfig (fileService c) w) as [[config|e] w']; simpl;
    by rewrite <- ?app_assoc.
Qed.

(** X3: [dispose()] disposes the watcher first in every case; it then
    releases the remote of the resolved configuration when [getConfig]
    returns, and otherwise throws the error of [getConfig] without releasing
    any remote. So a File Service whose configuration does not resolve (an
    unknown active profile, an unset variable behind [agent], a rejected
    validation, a missing ignore file) cannot be disposed of completely. *)
Theorem dispose_watcher_then_remote (c : Connection) (w : World) :
  let r := dispose c w in
  effects r.1.2
  = effects c
    ++ Watcher_dispose (_watcherService c) (baseDir (fileService c))
       :: match (getConfig (fileService c) w).1 with
          | Ok config => [RemoveRemote (getHostInfo config)]
          | Throw _ => []
          end
  ∧ r.1.1 = match (getConfig (fileService c) w).1 with
            | Ok _ => Ok ()
            | Throw e => Throw e
            end
  ∧ (succeeded r.1.1 = false ↔ ∀ h, RemoveRemote h ∉ drop (length (effects c)) (effects r.1.2))
  ∧ r.2 = (getConfig (fileService c) w).2.
Proof.
  intros r. subst r. rewrite dispose_eq. simpl.
  split; [done|]. split; [done|]. split; [|done].
  rewrite drop_app_length.
  destruct (getConfig (fileService c) w).1 as [config|e]; simpl.
  - split; [done|]. intros Hno. exfalso. apply (Hno (getHostInfo config)).
    right. left.
  - split; [|done]. intros _ h Hin.
    apply elem_of_cons in Hin as [Heq|Hin]; [done | by apply elem_of_nil in Hin].
Qed.


Lemma connection_inv_step (fsv : FileService) (w0 : World)
    (cw : Connection * World) (op : ConnectionOp) :
  connection_inv fsv w0 cw → connection_inv fsv w0 (connection_step cw op).
Proof.
  destruct cw as [c w]. intros (Hfs & Hin & Hrem & Hpair & Hcre). simpl in *.
  destruct op as [ws| |]; simpl.
  - split; [done|]. split; [done|]. split; [|split].
    + intros e h Hine He. apply (Hrem e h); [|done].
      apply elem_of_app in Hine as [Hine|Hine%list_elem_of_singleton]; [|by subst].
      apply elem_of_app in Hine as [Hine|Hine%list_elem_of_singleton]; [done | by subst].
    + by apply creates_follow_disposes_pair.
    + intros e b Hine He.
      apply elem_of_app in Hine as [Hine|Hine%list_elem_of_singleton].
      * apply elem_of_app in Hine as [Hine|Hine%list_elem_of_singleton];
          [by apply (Hcre e b) | by subst].
      * subst e. unfold _watcherConfig. simpl. by rewrite Hfs.
  - pose proof (getConfig_parts (fileService c) w) as [Hin' _]. revert Hin'.
    destruct (getConfig (fileService c) w) as [[sc|e] w'] eqn:Hg; simpl; intros Hin'.
    + split; [done|]. split; [unfold inputs in *; simpl in *; congruence|]. split; [|split].
      * intros e h [Hine|Hine%list_elem_of_singleton]%elem_of_app He; [by eauto|].
        subst e. injection He as <-. exists w, w', sc.
        split; [done|]. by rewrite <- Hfs.
      * by apply creates_follow_disposes_snoc.
      * intros e b [Hine|Hine%list_elem_of_singleton]%elem_of_app He;
          [by eauto | by subst].
    + split; [done|]. split; [unfold inputs in *; simpl in *; congruence|]. done.
  - rewrite dispose_eq. simpl.
    pose proof (getConfig_parts (fileService c) w) as [Hin' _].
    split; [done|]. split; [unfold inputs in *; simpl in *; congruence|]. clear Hin'.
    destruct (getConfig (fileService c) w) as [[sc|e] w'] eqn:Hg; simpl.
    + split; [|split].
      * intros e h [Hine|Hine]%elem_of_app He; [by eauto|].
        apply elem_of_cons in Hine as [->|Hine%list_elem_of_singleton]; [done|].
        subst e. injection He as <-. exists w, w', sc.
        split; [done|]. by rewrite <- Hfs.
      * change (?l ++ ?a :: [?b]) with (l ++ [a] ++ [b]). rewrite app_assoc.
        apply creates_follow_disposes_snoc; [|done].
        by apply creates_follow_disposes_snoc.
      * intros e b [Hine|Hine]%elem_of_app He; [by eauto|].
        apply elem_of_cons in Hine as [->|Hine%list_elem_of_singleton];
          [done | by subst].
    + split; [|split].
      * intros e0 h [Hine|Hine%list_elem_of_singleton]%elem_of_app He;
          [by eauto | by subst].
      * by apply creates_follow_disposes_snoc.
      * intros e0 b [Hine|Hine%list_elem_of_singleton]%elem_of_app He;
          [by eauto | by subst].
Qed.

Lemma connection_inv_exec (fsv : FileService) (w0 : World)
    (ops : list ConnectionOp) (cw : Connection * World) :
  connection_inv fsv w0 cw → connection_inv fsv w0 (connection_exec ops cw).
Proof.
  revert cw. induction ops as [|op ops IH]; intros cw Hinv; [done|].
  apply IH. by apply connection_inv_step.
Qed.

Lemma connection_inv_new (fsv : FileService) (w0 : World) :
  connection_inv fsv w0 (new_Connection fsv, w0).
Proof.
  split; [done|]. split; [done|]. split; [by intros ? ? ?%elem_of_nil|].
  split; [by intros ? ? ? ?|]. by intros ? ? ?%elem_of_nil.
Qed.


(** X5: through any such sequence of calls, every [create] of a watcher
    directly follows a [dispose] for the same base directory (the new watcher
    is never registered while the previous one is), and it is made for the
    base directory of the File Service with the [watcher] option of the
    configuration given to the constructor, not that of a profile. *)
Theorem watcher_recreated_after_dispose (fsv : FileService) (w0 : World)
    (ops : list ConnectionOp) :
  let c := (connection_exec ops (new_Connection fsv, w0)).1 in
  (∀ i watcherService watcherBase watcherConfig,
     effects c !! i = Some (Watcher_create watcherService watcherBase watcherConfig) →
     watcherBase = baseDir fsv
     ∧ watcherConfig = rest (_config fsv) !! "watcher"
     ∧ ∃ j previous, i = S j
                     ∧ effects c !! j = Some (Watcher_dispose previous (baseDir fsv)))
  ∧ (∀ watcherService,
       effects (setWatcherService watcherService c)
       = effects c
         ++ [Watcher_dispose (_watcherService c) (baseDir fsv);
             Watcher_create watcherService (baseDir fsv)
               (rest (_config fsv) !! "watcher")]).
Proof.
  intros c.
  destruct (connection_inv_exec fsv w0 ops _ (connection_inv_new fsv w0))
    as (Hfs & _ & _ & Hpair & Hcre).
  fold c in Hfs, Hpair, Hcre. split.
  - intros i ws b cfg Hi.
    assert (Hin : Watcher_create ws b cfg ∈ effects c)
      by (apply list_elem_of_lookup; eauto).
    specialize (Hcre _ b Hin eq_refl). injection Hcre as -> ->.
    split; [done|]. split; [done|].
    destruct (Hpair i _ _ Hi eq_refl) as (j & prev & -> & Hj). eauto.
  - intros ws. unfold setWatcherService, _createWatcher, _disposeWatcher,
      perform, _watcherConfig. simpl. by rewrite Hfs, <- app_assoc.
Qed.

End DisposalProperties.

(* ===================================================================== *)
(** ** More on configuration resolution *)
(* ===================================================================== *)

Section ResolutionMore.
Context `{PathModules}.

Lemma mergedConfig_steps (this : FileService) (w w0 w1 : World)
    (c0 c1 : CopiedConfig) :
  resolveAgent (_config this) (delete_profiles (Object_copy (_config this))) w
  = (Ok c0, w0) →
  applyProfile (_config this) c0 w0 = (Ok c1, w1) →
  mergedConfig this w
  = match validate this (_config this) c1 w1 with
    | (Ok _, w2) => (Ok c1, w2)
    | (Throw e, w2) => (Throw e, w2)
    end.
Proof.
  intros Hra Hap. unfold mergedConfig. run_M. rewrite Hra, Hap.
  by destruct (validate this (_config this) c1 w1) as [[[]|e] w2].
Qed.

(** Once the profile block has passed, [getConfig] can only fail in the
    validation or on the ignore file. *)
Lemma getConfig_throw_late (this : FileService) (w w0 w1 w' : World)
    (c0 c1 : CopiedConfig) (e : Exn) :
  resolveAgent (_config this) (delete_profiles (Object_copy (_config this))) w
  = (Ok c0, w0) →
  applyProfile (_config this) c0 w0 = (Ok c1, w1) →
  getConfig this w = (Throw e, w') →
  (∃ message hint, e = Error (validationMessage message hint))
  ∨ (∃ path, e = Error (notFoundMessage path))
  ∨ (∃ why path, e = Error (readErrorMessage why path)).
Proof.
  intros Hra Hap.
  rewrite getConfig_eq, (mergedConfig_steps _ _ _ _ _ _ Hra Hap), validate_eq.
  assert (Hlast : ∀ w2,
            match _createIgnoreFn this c1 w2 with
            | (Ok f, w3) => (Ok (set_ignore f c1), w3)
            | (Throw e0, w3) => (Throw e0, w3)
            end = (Throw e, w') →
            (∃ path, e = Error (notFoundMessage path))
            ∨ (∃ why path, e = Error (readErrorMessage why path))).
  { intros w2. rewrite createIgnoreFn_eq.
    destruct (filesIgnored_outcome c1 w2)
      as [(l & w3 & ->)|[(p & w3 & ->)|(why & p & w3 & ->)]]; [done| |];
      intros [= <- <-]; eauto. }
  destruct (_configValidator this) as [v|].
  - destruct (v c1) as [m|].
    + intros [= <- <-]. eauto.
    + intros Hg. right. by eapply Hlast.
  - intros Hg. right. by eapply Hlast.
Qed.

(** X6: for a File Service whose list of profile names is the one that the
    constructor computed, with a non-empty [profiles] map, a non-empty active
    profile name and the [agent] indirection passed: [getConfig] throws the
    unknown-profile error exactly when the active name is neither one of
    [getAvaliableProfiles()] nor one of the names that the [profiles] object
    inherits from [Object.prototype] (an inherited name is let through, and
    nothing is laid over the base configuration); and the list of
    [getAvaliableProfiles()] has no repetition. *)
Theorem available_profiles_are_the_accepted_names (this : FileService) (w : World)
    (name : string) (c0 : CopiedConfig) :
  _profiles this = Object_keys <$> profiles (_config this) →
  hasProfile (_config this) = true →
  state_profile w = Some name →
  Js.truthy name = true →
  resolveAgent (_config this) (delete_profiles (Object_copy (_config this))) w
  = (Ok c0, w) →
  ((∃ w', getConfig this w = (Throw (Error (unknownProfileMessage name)), w'))
   ↔ (name ∉ getAvaliableProfiles this) ∧ (name ∉ Object_prototype))
  ∧ (name ∉ getAvaliableProfiles this → name ∈ Object_prototype →
     applyProfile (_config this) c0 w
     = (Ok c0, log_line ("Using profile: " +:+ name) w))
  ∧ NoDup (getAvaliableProfiles this)
  ∧ (∀ last_id baseDir workspace config,
       _profiles (new_FileService last_id baseDir workspace config)
       = Object_keys <$> profiles config).
Proof.
  intros Hprof Hhas Hact Ht Hra.
  apply hasProfile_true in Hhas as Hps. destruct Hps as (ps & Hps & Hne).
  assert (Hav : getAvaliableProfiles this = Object_keys ps)
    by (unfold getAvaliableProfiles; by rewrite Hprof, Hps).
  assert (Hstep := applyProfile_eq (_config this) c0 w).
  assert (Happ : appliedProfile (_config this) w = ps !! name)
    by (unfold appliedProfile; rewrite Hhas, Hps, Hact; simpl; by rewrite Ht).
  rewrite Hhas, Happ, Hact in Hstep. simpl in Hstep. rewrite Ht in Hstep.
  assert (Hlate : ∀ c1 w1 w',
            applyProfile (_config this) c0 w = (Ok c1, w1) →
            getConfig this w ≠ (Throw (Error (unknownProfileMessage name)), w')).
  { intros c1 w1 w' Hap Hg.
    destruct (getConfig_throw_late _ _ _ _ _ _ _ _ Hra Hap Hg)
      as [(m & h & He)|[(p & He)|(why & p & He)]].
    - destruct h; discriminate He.
    - discriminate He.
    - destruct why; discriminate He. }
  split; [|split; [|split; [|done]]].
  - rewrite Hav, Object_keys_elem. split.
    + intros [w' Hg]. destruct (ps !! name) as [p|] eqn:Hp.
      * by destruct (Hlate _ _ w' Hstep).
      * split; [by intros [? ?]|]. intros Hin.
        rewrite bool_decide_eq_true_2 in Hstep by done.
        by destruct (Hlate _ _ w' Hstep).
    + intros [Hno Hown].
      destruct (ps !! name) as [p|] eqn:Hp; [by destruct Hno; eexists|].
      rewrite bool_decide_eq_false_2 in Hstep by done.
      eexists. rewrite getConfig_eq. unfold mergedConfig. run_M.
      rewrite Hra, Hstep. done.
  - rewrite Hav, Object_keys_elem. intros Hno Hin.
    destruct (ps !! name) as [p|] eqn:Hp; [by destruct Hno; eexists|].
    by rewrite bool_decide_eq_true_2 in Hstep.
  - rewrite Hav. apply NoDup_fst_map_to_list.
Qed.

(** X7: with a validator installed, once the [agent] and profile blocks
    have produced the merged configuration, the validator is given that
    merged configuration; if it rejects it, [getConfig] throws the
    validation error (with the hint to set a profile exactly when profiles
    exist and no profile is selected at all) before any use of the cache or
    of the disk; if it accepts it, [getConfig] goes on as without
    validator. *)
Theorem validation_precedes_ignore_files (this : FileService) (v : ConfigValidator)
    (w w1 : World) (c0 c1 : CopiedConfig) :
  _configValidator this = Some v →
  resolveAgent (_config this) (delete_profiles (Object_copy (_config this))) w
  = (Ok c0, w) →
  applyProfile (_config this) c0 w = (Ok c1, w1) →
  match v c1 with
  | Some message =>
      getConfig this w
      = (Throw (Error (validationMessage message
                         (hasProfile (_config this)
                          && bool_decide (state_profile w = None)))), w1)
      ∧ fs_part w1 = fs_part w
  | None =>
      getConfig this w
      = match _createIgnoreFn this c1 w1 with
        | (Ok f, w2) => (Ok (set_ignore f c1), w2)
        | (Throw e, w2) => (Throw e, w2)
        end
  end.
Proof.
  intros Hv Hra Hap.
  assert (Hw1 : fs_part w1 = fs_part w ∧ state_profile w1 = state_profile w).
  { rewrite applyProfile_eq in Hap.
    destruct (hasProfile _ && _); [|by injection Hap as _ <-].
    cbv zeta in Hap. destruct (appliedProfile _ w); [by injection Hap as _ <-|].
    case_bool_decide; [|done]. by injection Hap as _ <-. }
  rewrite getConfig_eq, (mergedConfig_steps _ _ _ _ _ _ Hra Hap), validate_eq, Hv.
  destruct (v c1) as [m|]; [|done]. destruct Hw1 as [Hfs ->]. done.
Qed.

(** What a resolution that throws leaves behind: the cache as it was, and
    no call of [readFileSync] but one that failed. *)
Lemma filesIgnored_throw_frame {A} (config : Config A (list string)) (w : World) :
  succeeded (filesIgnoredFromConfig config w).1 = false →
  ignoreFileCache (filesIgnoredFromConfig config w).2 = ignoreFileCache w
  ∧ ∀ path, (∀ why, disk w !! path ≠ Some (Unreadable why)) →
            reads_of path (fs_calls (filesIgnoredFromConfig config w).2)
            = reads_of path (fs_calls w).
Proof.
  filesIgnored_split config w; simpl; try done; intros _; (split; [done|]); intros path Hr.
  - assert (p ≠ path) by (intros ->; by apply (Hr why)).
    rewrite reads_of_app, reads_of_read, decide_False by done. lia.
  - rewrite reads_of_app. unfold reads_of at 2.
    rewrite filter_cons_False by done. simpl. lia.
Qed.

(** What a resolution adds to the cache: the lines of a file on disk. *)
Lemma filesIgnored_new_entry {A} (config : Config A (list string)) (w : World)
    (path : string) (lines : list string) :
  ignoreFileCache (filesIgnoredFromConfig config w).2 !! path = Some lines →
  ignoreFileCache w !! path = None →
  ∃ text, disk w !! path = Some (File text) ∧ lines = Js.split_lines text
          ∧ ignoreFile config = Some path
          ∧ succeeded (filesIgnoredFromConfig config w).1 = true.
Proof.
  filesIgnored_split config w; simpl; try congruence.
  intros Hl Hn. destruct (decide (p = path)) as [->|Hne].
  - rewrite lookup_insert_eq in Hl. injection Hl as <-. eauto.
  - rewrite lookup_insert_ne in Hl by done. congruence.
Qed.

(** X8: a call of [getConfig], whether it returns or throws, leaves the
    active profile, the environment and the disk as they are and keeps
    every entry that the cache of ignore files holds; an entry that it adds
    holds the lines of the file that is on disk under that path, and the
    call returns; a call that throws leaves the cache as it is, and the only
    call of [readFileSync] that it can have made is one that failed, for
    something on disk that cannot be read. *)
Theorem getConfig_frame (this : FileService) (w : World) :
  state_profile (getConfig this w).2 = state_profile w
  ∧ process_env (getConfig this w).2 = process_env w
  ∧ disk (getConfig this w).2 = disk w
  ∧ (∀ path lines,
       ignoreFileCache w !! path = Some lines →
       ignoreFileCache (getConfig this w).2 !! path = Some lines)
  ∧ (∀ path lines,
       ignoreFileCache (getConfig this w).2 !! path = Some lines →
       ignoreFileCache w !! path = None →
       ∃ text, disk w !! path = Some (File text) ∧ lines = Js.split_lines text
               ∧ succeeded (getConfig this w).1 = true)
  ∧ (succeeded (getConfig this w).1 = false →
     ignoreFileCache (getConfig this w).2 = ignoreFileCache w
     ∧ ∀ path, (∀ why, disk w !! path ≠ Some (Unreadable why)) →
               reads_of path (fs_calls (getConfig this w).2)
               = reads_of path (fs_calls w)).
Proof.
  destruct (getConfig_parts this w) as [Hin Hfs].
  injection Hin as Hp He.
  split; [done|]. split; [done|].
  assert (Hout : match (mergedConfig this w).1 with
                 | Ok copied =>
                     succeeded (getConfig this w).1
                     = succeeded (filesIgnoredFromConfig copied w).1
                 | Throw _ => True
                 end).
  { rewrite getConfig_eq. destruct (mergedConfig_parts this w) as [Hfs1 _].
    destruct (mergedConfig this w) as [[copied|e] w1]; simpl in *; [|done].
    rewrite createIgnoreFn_eq.
    destruct (filesIgnored_fs_part copied w1 w Hfs1) as [<- _].
    by destruct (filesIgnoredFromConfig copied w1) as [[l|e] w2]. }
  destruct (mergedConfig this w).1 as [copied|e].
  - injection Hfs as Hc Hd Hf. rewrite Hc, Hd, Hf, Hout.
    split; [|split; [|split]].
    + apply filesIgnored_disk.
    + intros path lines Hl. by apply filesIgnored_keeps.
    + intros path lines Hl Hn.
      destruct (filesIgnored_new_entry copied w path lines Hl Hn)
        as (text & ? & ? & _ & ?). eauto.
    + apply filesIgnored_throw_frame.
  - injection Hfs as Hc Hd Hf. rewrite Hc, Hd, Hf.
    split; [done|]. split; [done|]. split; [congruence|done].
Qed.

(** X9: when the effective configuration names an [ignoreFile] that is on
    disk and not yet in the cache, [getConfig] returns a configuration with
    an ignore predicate, built from the patterns of [ignore] followed by the
    lines of the file, in that order; this is so even when [ignore] is empty
    and the file is empty, since an empty file has one (empty) line. *)
Theorem existing_ignoreFile_gives_predicate (this : FileService) (w0 w : World)
    (copied : CopiedConfig) (path text : string) :
  mergedConfig this w0 = (Ok copied, w) →
  ignoreFile copied = Some path →
  Js.truthy path = true →
  ignoreFileCache w !! path = None →
  disk w !! path = Some (File text) →
  (getConfig this w0).1
  = Ok (set_ignore
          (Some (ignoreFunc (baseDir this) (remotePath copied)
                   (Ignore_from (ignore copied ++ Js.split_lines text))))
          copied).
Proof.
  intros Hm Hf Ht Hc Hd.
  rewrite getConfig_eq, Hm, createIgnoreFn_eq.
  rewrite (filesIgnored_read copied w path text) by done.
  destruct (ignore copied ++ Js.split_lines text) as [|x l] eqn:Hl; [|done].
  apply app_eq_nil in Hl as [_ Hl]. by apply split_lines_nonempty in Hl.
Qed.

(** X10: [getConfig] never returns the raw [profiles] map: the [profiles]
    of the result is that of the profile that was applied, if it has one,
    and nothing otherwise; in particular nothing when no profile is
    applied. *)
Theorem getConfig_strips_profiles (this : FileService) (w w' : World)
    (sc : ServiceConfig) :
  getConfig this w = (Ok sc, w') →
  profiles sc = appliedProfile (_config this) w ≫= p_profiles.
Proof.
  intros Hg.
  destruct (getConfig_ok _ _ _ _ Hg) as (copied & w1 & Hm & ->).
  destruct (mergedConfig_ok _ _ _ _ Hm) as (c0 & Hra & ->).
  destruct (resolveAgent_ok _ _ _ _ _ Hra) as (_ & _ & _ & Hpr & _).
  simpl. destruct (appliedProfile _ w) as [pr|]; simpl; [|done].
  rewrite Hpr. simpl. by destruct (p_profiles pr).
Qed.

End ResolutionMore.

(* ===================================================================== *)
(** ** Lines of an ignore file *)
(* ===================================================================== *)

Lemma has_char_cons (a c : ascii) (s : string) :
  has_char a (String c s) = false ↔ Ascii.eqb c a = false ∧ has_char a s = false.
Proof.
  change (has_char a (String c s)) with (Ascii.eqb a c || has_char a s).
  by rewrite orb_false_iff, (Ascii.eqb_sym a c).
Qed.

Lemma split_lines_cons (c : ascii) (s : string) :
  Js.split_lines (String c s)
  = if Ascii.eqb c Js.LF then EmptyString :: Js.split_lines s
    else match s with
         | String c' s'' =>
             if Ascii.eqb c Js.CR && Ascii.eqb c' Js.LF
             then EmptyString :: Js.split_lines s''
             else Js.cons_head c (Js.split_lines s)
         | EmptyString => Js.cons_head c (Js.split_lines s)
         end.
Proof. reflexivity. Qed.

Lemma split_lines_plain (l : string) :
  has_char Js.LF l = false → Js.split_lines l = [l].
Proof.
  induction l as [|c l IH]; [done|]. intros [Hc Hl]%has_char_cons.
  rewrite split_lines_cons, Hc, (IH Hl).
  destruct l as [|c' l']; [done|].
  apply has_char_cons in Hl as [Hc' _]. by rewrite Hc', andb_false_r.
Qed.

Lemma split_lines_first (sep l more : string) :
  sep = sep_CRLF ∨ sep = sep_LF →
  has_char Js.LF l = false → has_char Js.CR l = false →
  Js.split_lines (l +:+ sep +:+ more) = l :: Js.split_lines more.
Proof.
  intros Hsep. induction l as [|c l IH]; intros Hlf Hcr.
  - destruct Hsep as [-> | ->]; reflexivity.
  - apply has_char_cons in Hlf as [Hc Hlf]. apply has_char_cons in Hcr as [Hc2 Hcr].
    change (String c l +:+ sep +:+ more) with (String c (l +:+ sep +:+ more)).
    rewrite split_lines_cons, Hc, Hc2, (IH Hlf Hcr). cbn [andb].
    by destruct (l +:+ sep +:+ more).
Qed.

(** X11: an ignore file written as one pattern per line, with either line
    ending between the lines, is split back into exactly those patterns:
    for a non-empty list of lines that contain neither a line feed nor a
    carriage return, splitting their join by CR LF or by LF returns the
    list. *)
Theorem split_lines_join (lines : list string) :
  lines ≠ [] →
  Forall (λ l, has_char Js.LF l = false ∧ has_char Js.CR l = false) lines →
  Js.split_lines (join_lines sep_CRLF lines) = lines
  ∧ Js.split_lines (join_lines sep_LF lines) = lines.
Proof.
  intros Hne Hall.
  assert (Hsep : ∀ sep, sep = sep_CRLF ∨ sep = sep_LF →
                        Js.split_lines (join_lines sep lines) = lines).
  { intros sep Hsep. induction Hall as [|l ls [Hlf Hcr] Hall IH]; [done|].
    destruct ls as [|l' ls']; [by apply split_lines_plain|].
    change (join_lines sep (l :: l' :: ls'))
      with (l +:+ sep +:+ join_lines sep (l' :: ls')).
    rewrite split_lines_first by done. f_equal. by apply IH. }
  split; apply Hsep; auto.
Qed.

(** *** The same resolution again *)

Lemma filesIgnored_cached {A} (config : Config A (list string)) (w w1 w' : World)
    (l : list string) :
  filesIgnoredFromConfig config w = (Ok l, w1) →
  (∀ path lines, ignoreFileCache w1 !! path = Some lines →
                 ignoreFileCache w' !! path = Some lines) →
  filesIgnoredFromConfig config w' = (Ok l, w').
Proof.
  intros Hf Hsub. revert Hf.
  destruct (filesIgnored_cases config w)
    as [Ht|(p & Hp & Ht & [[lines Hcp]|[Hcp [[text Hdp]|[[why Hdp]|Hdp]]]])].
  - rewrite !filesIgnored_no_file by done. congruence.
  - rewrite (filesIgnored_hit config w p lines) by done. intros [= <- <-].
    by rewrite (filesIgnored_hit config w' p lines) by auto.
  - rewrite (filesIgnored_read config w p text) by done. intros [= <- <-].
    rewrite (filesIgnored_hit config w' p (Js.split_lines text)); [done..|].
    apply Hsub. simpl. apply lookup_insert_eq.
  - by rewrite (filesIgnored_unreadable config w p why) by done.
  - by rewrite (filesIgnored_missing config w p) by done.
Qed.

Lemma filesIgnored_twice {A} (config : Config A (list string)) (w : World) :
  (filesIgnoredFromConfig config (filesIgnoredFromConfig config w).2).1
  = (filesIgnoredFromConfig config w).1.
Proof.
  destruct (filesIgnoredFromConfig config w) as [[l|e] w1] eqn:Hf.
  - simpl. by rewrite (filesIgnored_cached config w w1 w1 l).
  - revert Hf.
    destruct (filesIgnored_cases config w)
      as [Ht|(p & Hp & Ht & [[lines Hcp]|[Hcp [[text Hdp]|[[why Hdp]|Hdp]]]])].
    + by rewrite filesIgnored_no_file.
    + by rewrite (filesIgnored_hit config w p lines).
    + by rewrite (filesIgnored_read config w p text).
    + rewrite (filesIgnored_unreadable config w p why) by done.
      intros [= <- <-]. simpl.
      by rewrite (filesIgnored_unreadable config _ p why).
    + rewrite (filesIgnored_missing config w p) by done.
      intros [= <- <-]. simpl.
      by rewrite (filesIgnored_missing config _ p).
Qed.

Section ResolutionAgain.
Context `{PathModules}.

(** X14: the answer of [getConfig] is stable. A second call right after
    the first gives the same result, the same configuration or the same
    error. And once a call has returned a configuration, every later call
    under the same active profile and environment, in a state whose cache
    still holds the entries that the first call left, returns that
    configuration again, whatever has become of the files on disk: an ignore
    file that was changed or removed in the meantime is not noticed. *)
Theorem getConfig_again (this : FileService) (w : World) :
  (getConfig this (getConfig this w).2).1 = (getConfig this w).1
  ∧ ∀ w', inputs w' = inputs w →
          succeeded (getConfig this w).1 = true →
          (∀ path lines,
             ignoreFileCache (getConfig this w).2 !! path = Some lines →
             ignoreFileCache w' !! path = Some lines) →
          (getConfig this w').1 = (getConfig this w).1
          ∧ fs_calls (getConfig this w').2 = fs_calls w'.
Proof.
  split.
  - destruct (getConfig_parts this w) as [Hin _].
    pose proof (mergedConfig_inputs this _ _ Hin) as Hm.
    destruct (mergedConfig_parts this (getConfig this w).2) as [Hfs2 _].
    revert Hm Hfs2. rewrite (getConfig_eq this (getConfig this w).2).
    destruct (mergedConfig this (getConfig this w).2) as [r2 w3]. simpl.
    intros -> Hfs2. revert Hfs2. rewrite (getConfig_eq this w).
    destruct (mergedConfig this w) as [[copied|e] w1]; simpl; [|done].
    rewrite !createIgnoreFn_eq. intros Hfs2.
    destruct (filesIgnored_fs_part copied _ _ Hfs2) as [Ho _].
    pose proof (filesIgnored_twice copied w1) as Htw.
    destruct (filesIgnoredFromConfig copied w1) as [r1 w2]. simpl in *.
    destruct r1 as [l1|e1]; simpl in *.
    + rewrite Htw in Ho.
      destruct (filesIgnoredFromConfig copied w3) as [[l3|e3] w4]; simpl in *;
        by simplify_eq.
    + rewrite Htw in Ho.
      destruct (filesIgnoredFromConfig copied w3) as [[l3|e3] w4]; simpl in *;
        by simplify_eq.
  - intros w' Hin Hok Hsub.
    pose proof (mergedConfig_inputs this _ _ Hin) as Hm.
    destruct (mergedConfig_parts this w') as [Hfs' _].
    revert Hok Hsub. rewrite (getConfig_eq this w), (getConfig_eq this w').
    revert Hm Hfs'.
    destruct (mergedConfig this w') as [r' w1']. simpl. intros -> Hfs'.
    destruct (mergedConfig this w) as [[copied|e] w1]; simpl; [|done].
    rewrite !createIgnoreFn_eq.
    destruct (filesIgnoredFromConfig copied w1) as [[l|e] w2] eqn:Hf; simpl; [|done].
    intros _ Hsub.
    rewrite (filesIgnored_cached copied w1 w2 w1' l Hf).
    + simpl. split; [done|]. by injection Hfs'.
    + intros path lines Hl. injection Hfs' as -> _ _. by apply Hsub.
Qed.

(** *** Names that are found although nothing is there *)

(** X15: an [agent] that is [$] followed by a name that [process.env]
    inherits from [Object.prototype] ([constructor], [toString], ...), with
    no variable of that name set: the read finds the inherited function, so
    no error is thrown for the variable, and whenever [getConfig] returns,
    the resolved [agent] is that function and no string, unless the profile
    that was applied has an [agent] of its own. *)
Theorem inherited_name_passes_for_a_variable (this : FileService) (w : World)
    (name : string) :
  agent (_config this) = Some ("$" +:+ name) →
  name ∈ Object_prototype →
  process_env w !! name = None →
  resolveAgent (_config this) (delete_profiles (Object_copy (_config this))) w
  = (Ok (set_agent (Proto name) (delete_profiles (Object_copy (_config this)))), w)
  ∧ (¬ ∃ w', getConfig this w = (Throw (Error (envNotFoundMessage name)), w'))
  ∧ ∀ (sc : ServiceConfig) (w' : World),
      getConfig this w = (Ok sc, w') →
      agent sc = match appliedProfile (_config this) w ≫= p_agent with
                 | Some a => Some (Val a)
                 | None => Some (Proto name)
                 end.
Proof.
  intros Ha Hin Hunset.
  assert (Hget : Object_get (process_env w) name = Some (Proto name))
    by (unfold Object_get; by rewrite Hunset, bool_decide_eq_true_2).
  assert (Hra : resolveAgent (_config this)
                  (delete_profiles (Object_copy (_config this))) w
                = (Ok (set_agent (Proto name)
                         (delete_profiles (Object_copy (_config this)))), w))
    by (by rewrite (resolveAgent_env _ _ _ _ Ha), Hget).
  split; [exact Hra|]. split.
  - intros [w' Hg]. apply getConfig_throw in Hg
      as [(n & Ha' & Hf & He)|[(n & He)|[(v & m & h & _ & He)|[(p & He)|(why & p & He)]]]].
    + assert (n = name) as -> by (apply (inj (append "$")); congruence).
      by rewrite Hget in Hf.
    + discriminate He.
    + destruct h; discriminate He.
    + discriminate He.
    + destruct why; discriminate He.
  - intros sc w' Hg.
    destruct (getConfig_ok _ _ _ _ Hg) as (copied & w1 & Hm & ->).
    destruct (mergedConfig_ok _ _ _ _ Hm) as (c0 & Hra' & ->).
    rewrite Hra in Hra'. injection Hra' as <-. simpl.
    destruct (appliedProfile _ w) as [pr|]; [|done]. simpl.
    by destruct (p_agent pr).
Qed.

(** X16: when the effective configuration names an [ignoreFile] that is on
    disk but cannot be read (a directory, a file without read permission)
    and that the cache does not hold, [getConfig] throws the error of the
    failed read, after it has asked whether the path exists and has called
    [readFileSync]; nothing is cached, so the next call of [getConfig] fails
    in the same way, after asking and reading again. *)
Theorem unreadable_ignoreFile_throws (this : FileService) (w0 w : World)
    (copied : CopiedConfig) (path : string) (why : ReadError) :
  mergedConfig this w0 = (Ok copied, w) →
  ignoreFile copied = Some path →
  Js.truthy path = true →
  ignoreFileCache w !! path = None →
  disk w !! path = Some (Unreadable why) →
  getConfig this w0
  = (Throw (Error (readErrorMessage why path)),
     mkWorld (ignoreFileCache w) (state_profile w) (process_env w) (disk w)
       (fs_calls w ++ [ExistsSync path; ReadFileSync path]) (logged w))
  ∧ (getConfig this (getConfig this w0).2).1
    = Throw (Error (readErrorMessage why path))
  ∧ reads_of path (fs_calls (getConfig this (getConfig this w0).2).2)
    = reads_of path (fs_calls w0) + 2.
Proof.
  intros Hm Hf Ht Hc Hd.
  assert (Hg : getConfig this w0
               = (Throw (Error (readErrorMessage why path)),
                  mkWorld (ignoreFileCache w) (state_profile w) (process_env w) (disk w)
                    (fs_calls w ++ [ExistsSync path; ReadFileSync path]) (logged w))).
  { rewrite getConfig_eq, Hm, createIgnoreFn_eq.
    by rewrite (filesIgnored_unreadable copied w path why). }
  split; [exact Hg|]. rewrite Hg. simpl.
  destruct (mergedConfig_parts this w0) as [Hfs0 Hin0]. rewrite Hm in Hfs0, Hin0.
  simpl in Hfs0, Hin0. injection Hfs0 as _ _ Hcalls.
  set (w' := mkWorld (ignoreFileCache w) (state_profile w) (process_env w) (disk w)
               (fs_calls w ++ [ExistsSync path; ReadFileSync path]) (logged w)).
  assert (Hin : inputs w0 = inputs w') by (by rewrite <- Hin0).
  pose proof (mergedConfig_inputs this w0 w' Hin) as Hm'.
  destruct (mergedConfig_parts this w') as [Hfs' _].
  rewrite Hm in Hm'. simpl in Hm'.
  rewrite getConfig_eq.
  destruct (mergedConfig this w') as [r2 w2]. simpl in Hm', Hfs'. subst r2.
  injection Hfs' as Hc2 Hd2 Hf2.
  rewrite createIgnoreFn_eq.
  rewrite (filesIgnored_unreadable copied w2 path why)
    by (done || by rewrite ?Hc2, ?Hd2).
  simpl. split; [done|].
  rewrite Hf2. simpl. rewrite Hcalls, !reads_of_app, !reads_of_read.
  rewrite !decide_True by done. lia.
Qed.

End ResolutionAgain.

(* ===================================================================== *)
(** ** More on transfers *)
(* ===================================================================== *)

(** X12: [cancelTransferTasks] resolves no promise, removes no listener and
    leaves the running tasks, the concurrency and the started flag of every
    scheduler as they are, so that a [run()] that is awaited still resolves
    when its scheduler becomes idle; and a second call right after the first
    changes nothing but the log, to which it adds the two clearings. *)
Theorem cancelTransferTasks_keeps_runs (w : Transfers) :
  promises (cancelTransferTasks w) = promises w
  ∧ (∀ s, (λ sch, (concurrency sch, started sch, running sch,
                   onTaskStart_listeners sch, onTaskDone_listeners sch,
                   onIdle_listeners sch)) <$> heap (cancelTransferTasks w) !! s
          = (λ sch, (concurrency sch, started sch, running sch,
                     onTaskStart_listeners sch, onTaskDone_listeners sch,
                     onIdle_listeners sch)) <$> heap w !! s)
  ∧ cancelTransferTasks (cancelTransferTasks w)
    = act PendingCleared (act SchedulersCleared (cancelTransferTasks w)).
Proof.
  rewrite !cancelTransferTasks_eq. simpl. split; [done|]. split.
  - intros s. rewrite alter_all_lookup by done.
    case_bool_decide; [|done]. by destruct (heap w !! s).
  - unfold act. simpl. by rewrite <- !app_assoc.
Qed.

(** *** The pending set *)

Lemma pending_within_forEach {A} (f : A → Transfers → Transfers)
    (extra : list TaskRef) (l : list A) (w : Transfers) :
  (∀ x w, pending_within extra w (f x w)) →
  pending_within extra w (forEach f l w).
Proof.
  intros Hf. revert w. induction l as [|x l IH]; intros w; [split; auto|].
  rewrite forEach_cons. destruct (Hf x w) as [Hh Hp], (IH (f x w)) as [Hh' Hp'].
  split; [congruence|]. intros t Ht. destruct (Hp' t Ht) as [Ht'|]; auto.
Qed.

Lemma pending_within_started (s : SchedRef) (task : TaskRef) (w : Transfers) :
  pending_within [task] w (notify_task_started s task w).
Proof.
  apply pending_within_forEach. intros [] w0. split; [done|]. simpl.
  intros t [->|Ht]%Set_add_elem; [right; left | by left].
Qed.

Lemma pending_within_mono (extra extra' : list TaskRef) (w w' : Transfers) :
  (∀ t, t ∈ extra → t ∈ extra') →
  pending_within extra w w' → pending_within extra' w w'.
Proof. intros Hsub [Hh Hp]. split; [done|]. intros t Ht. destruct (Hp t Ht); auto. Qed.

Lemma pending_within_each (l : list TaskRef) (s : SchedRef) (w : Transfers) :
  pending_within l w (forEach (notify_task_started s) l w).
Proof.
  revert w. induction l as [|x l IH]; intros w; [split; auto|].
  rewrite forEach_cons.
  destruct (pending_within_started s x w) as [Hh Hp].
  destruct (IH (notify_task_started s x w)) as [Hh' Hp'].
  split; [congruence|]. intros t Ht.
  destruct (Hp' t Ht) as [Ht'|Ht']; [|right; by right].
  destruct (Hp t Ht') as [Hin|Hin%list_elem_of_singleton];
    [by left | subst; right; left].
Qed.

Lemma pending_inv_update (s : SchedRef) (f : Scheduler → Scheduler) (w : Transfers) :
  (∀ sch t, t ∈ running sch → t ∈ running (f sch)) →
  (∀ sch, onTaskDone_listeners (f sch) = onTaskDone_listeners sch) →
  pending_inv w → pending_inv (update_scheduler s f w).
Proof.
  intros Hrun Hdone [Hp Hd]. split; simpl.
  - intros t Ht. destruct (Hp t Ht) as (s' & sch & Hs & Hin).
    destruct (decide (s = s')) as [->|Hne].
    + exists s', (f sch). rewrite lookup_alter_eq, Hs. auto.
    + exists s', sch. by rewrite lookup_alter_ne.
  - intros s' sch' Hs'. destruct (decide (s = s')) as [->|Hne].
    + rewrite lookup_alter_eq in Hs'. destruct (heap w !! s') as [sch|] eqn:Hs; [|done].
      injection Hs' as <-. rewrite Hdone. by eapply Hd.
    + rewrite lookup_alter_ne in Hs' by done. by eapply Hd.
Qed.

Lemma pending_inv_dispatch (s : SchedRef) (w : Transfers) :
  pending_inv w → pending_inv (dispatch s w).
Proof.
  intros Hinv. unfold dispatch. destruct (heap w !! s) as [sch|] eqn:Hs; [|done].
  set (w1 := update_scheduler s Scheduler_dispatch w).
  assert (Hinv1 : pending_inv w1).
  { apply pending_inv_update; [|done|done]. intros sch0 t Ht. simpl.
    apply elem_of_app. by left. }
  destruct (pending_within_each (dispatched sch) s w1) as [Hh Hp].
  destruct Hinv1 as [Hp1 Hd1]. split.
  - intros t Ht. rewrite Hh. destruct (Hp t Ht) as [Ht'|Ht']; [by apply Hp1|].
    exists s, (Scheduler_dispatch sch). split.
    + unfold w1. simpl. by rewrite lookup_alter_eq, Hs.
    + simpl. apply elem_of_app. by right.
  - intros s' sch'. rewrite Hh. apply Hd1.
Qed.

Lemma pending_frame_inv (w w' : Transfers) :
  heap w' = heap w →
  _pendingTransferTasks (this w') = _pendingTransferTasks (this w) →
  pending_inv w → pending_inv w'.
Proof. unfold pending_inv. by intros -> ->. Qed.

Lemma pending_frame_removeScheduler (s : SchedRef) (w : Transfers) :
  heap (_removeScheduler s w) = heap w
  ∧ _pendingTransferTasks (this (_removeScheduler s w)) = _pendingTransferTasks (this w).
Proof. unfold _removeScheduler. by destruct (findIndex s (_schedulers (this w))). Qed.

Lemma pending_frame_idle (s : SchedRef) (w : Transfers) :
  heap (notify_idle s w) = heap w
  ∧ _pendingTransferTasks (this (notify_idle s w)) = _pendingTransferTasks (this w).
Proof.
  unfold notify_idle. generalize (listeners_of onIdle_listeners s w). intros ls.
  revert w. induction ls as [|[s' p] ls IH]; intros w; [done|].
  rewrite forEach_cons. destruct (IH (call_IdleListener (ResolveRun s' p) w)) as [-> ->].
  simpl. apply pending_frame_removeScheduler.
Qed.

Lemma done_removes (ls : list DoneListener) (err : option string) (task : TaskRef)
    (w : Transfers) :
  heap (forEach (λ l, call_DoneListener l err task) ls w) = heap w
  ∧ (∀ t, t ∈ _pendingTransferTasks (this (forEach (λ l, call_DoneListener l err task) ls w)) →
          t ∈ _pendingTransferTasks (this w) ∧ (ls ≠ [] → t ≠ task)).
Proof.
  revert w. induction ls as [|l ls IH]; intros w; [by split|].
  destruct l. rewrite forEach_cons. destruct (IH (call_DoneListener UntrackPending err task w)) as [-> Hp].
  split; [done|]. intros t Ht. destruct (Hp t Ht) as [Hin _]. simpl in Hin.
  unfold Set_delete in Hin. apply list_elem_of_filter in Hin as [Hne Hin]. auto.
Qed.

Lemma pending_inv_task_finished (s : SchedRef) (err : option string) (task : TaskRef)
    (w : Transfers) :
  pending_inv w → pending_inv (task_finished s err task w).
Proof.
  intros [Hp Hd]. unfold task_finished.
  destruct (heap w !! s) as [sch|] eqn:Hs; [|done].
  case_bool_decide; [|done]. cbv zeta.
  set (w1 := update_scheduler s (Scheduler_retire task) w).
  assert (Hs1 : heap w1 !! s = Some (Scheduler_retire task sch))
    by (unfold w1; simpl; by rewrite lookup_alter_eq, Hs).
  assert (Hinv2 : pending_inv (notify_task_done s err task w1)).
  { unfold notify_task_done, listeners_of. rewrite Hs1.
    destruct (done_removes (onTaskDone_listeners (Scheduler_retire task sch))
                err task w1) as [Hh Hrem].
    split.
    - intros t Ht. rewrite Hh. destruct (Hrem t Ht) as [Hin Hne].
      assert (t ≠ task).
      { apply Hne. simpl. intros Hnil. specialize (Hd s sch Hs).
        rewrite Hnil in Hd. by apply elem_of_nil in Hd. }
      destruct (Hp t Hin) as (s' & sch' & Hs' & Hrun).
      destruct (decide (s = s')) as [<-|Hne'].
      + exists s, (Scheduler_retire task sch). split; [done|].
        rewrite Hs in Hs'. injection Hs' as <-. simpl.
        by apply list_elem_of_filter.
      + exists s', sch'. split; [|done]. unfold w1. simpl.
        by rewrite lookup_alter_ne.
    - intros s' sch'. rewrite Hh. unfold w1. simpl.
      destruct (decide (s = s')) as [<-|Hne'].
      + rewrite lookup_alter_eq, Hs. intros [= <-]. by apply (Hd s sch).
      + rewrite lookup_alter_ne by done. apply Hd. }
  apply (pending_inv_dispatch s) in Hinv2.
  destruct (heap (dispatch s _) !! s) as [sch'|]; [|done].
  destruct (is_idle sch'); [|done].
  destruct (pending_frame_idle s (dispatch s (notify_task_done s err task w1))) as [Hh Hpd].
  by apply (pending_frame_inv _ _ Hh Hpd).
Qed.

Lemma pending_inv_step (w : Transfers) (op : Op) :
  pending_inv w → pending_inv (step w op).
Proof.
  intros Hinv. destruct op as [c|s t|s|s err t|]; simpl.
  - unfold createTransferScheduler. cbv zeta. simpl.
    set (h := fresh (dom (heap w))).
    assert (Hh : heap w !! h = None) by (apply not_elem_of_dom, is_fresh).
    destruct Hinv as [Hp Hd]. split; simpl.
    + intros t Ht. destruct (Hp t Ht) as (s' & sch & Hs & Hin).
      exists s', sch. split; [|done].
      assert (h ≠ s') by congruence.
      by rewrite !lookup_alter_ne, lookup_insert_ne.
    + intros s' sch'. destruct (decide (h = s')) as [<-|Hne].
      * rewrite !lookup_alter_eq, lookup_insert_eq. simpl. intros [= <-]. simpl. left.
      * rewrite !lookup_alter_ne, lookup_insert_ne by done. apply Hd.
  - case_bool_decide; [|done]. unfold TransferScheduler_add, Scheduler_add. cbv zeta.
    assert (Hinv1 : pending_inv (update_scheduler s (Scheduler_enqueue t) w))
      by by apply pending_inv_update.
    destruct (heap (update_scheduler s (Scheduler_enqueue t) w) !! s) as [sch|];
      [|done].
    destruct (autoStart sch || started sch); [by apply pending_inv_dispatch | done].
  - case_bool_decide; [|done]. unfold TransferScheduler_run. cbv zeta.
    set (w1 := mkTransfers _ _ (promises w ++ _) _ _).
    assert (Hinv1 : pending_inv w1) by done.
    destruct (TransferScheduler_size s w1 <=? 0); simpl.
    + destruct (pending_frame_removeScheduler s w1) as [Hh Hp].
      by apply (pending_frame_inv w1).
    + unfold Scheduler_start. apply pending_inv_dispatch.
      apply (pending_frame_inv (update_scheduler s Scheduler_set_started
                                  (update_scheduler s (Scheduler_onIdle
                                     (ResolveRun s (length (promises w)))) w1)));
        [done | done |].
      by apply pending_inv_update, pending_inv_update.
  - by apply pending_inv_task_finished.
  - rewrite cancelTransferTasks_eq. destruct Hinv as [Hp Hd]. split; simpl.
    + by intros t Ht%elem_of_nil.
    + intros s sch. rewrite alter_all_lookup by done.
      case_bool_decide; [|apply Hd].
      destruct (heap w !! s) as [sch0|] eqn:Hs; [|done]. intros [= <-]. simpl.
      by apply (Hd s sch0).
Qed.

Lemma pending_inv_exec (ops : list Op) (w : Transfers) :
  pending_inv w → pending_inv (exec ops w).
Proof.
  revert w. induction ops as [|op ops IH]; intros w Hinv; [done|].
  apply IH. by apply pending_inv_step.
Qed.

(** X13: in every state that a File Service can reach, each task that
    [getPendingTransferTasks()] returns is running in one of the schedulers
    that [createTransferScheduler] made: the pending set holds no task that
    has not started or that has finished. *)
Theorem pending_tasks_are_running (fsv : FileService) (ops : list Op) (t : TaskRef) :
  let w := exec ops (fresh_service fsv) in
  t ∈ getPendingTransferTasks (this w) →
  ∃ s sch, heap w !! s = Some sch ∧ t ∈ running sch.
Proof.
  intros w Ht.
  assert (Hinv : pending_inv w).
  { apply pending_inv_exec. split; simpl; [by intros ? ?%elem_of_nil|].
    intros s sch. by rewrite lookup_empty. }
  by apply Hinv.
Qed.

(* ===================================================================== *)
(** ** The further properties on the sample objects *)
(* ===================================================================== *)

Module MoreExamples.
Import Sample SampleHost.
#[local] Existing Instance Sample.modules.

Lemma getHostInfo_local_options_irrelevant_witness :
  getHostInfo resolved_a = getHostInfo resolved_b.
Proof.
  apply getHostInfo_local_options_irrelevant; [reflexivity | reflexivity |].
  intros key Hk. unfold resolved_b. simpl. rewrite lookup_insert_ne; [reflexivity|].
  intros <-. apply Hk. repeat constructor.
Defined.


(** The name [prod] is rejected; the name [constructor], which is no more
    a profile of the map, is let through. *)
Lemma available_profiles_are_the_accepted_names_witness :
  ("prod" ∉ getAvaliableProfiles (service (with_profiles {[ "dev" := profile None ]} config)))
  ∧ (∃ w', getConfig (service (with_profiles {[ "dev" := profile None ]} config))
             (with_profile "prod" world)
           = (Throw (Error (unknownProfileMessage "prod")), w'))
  ∧ ("constructor"
       ∉ getAvaliableProfiles (service (with_profiles {[ "dev" := profile None ]} config)))
  ∧ ¬ ∃ w', getConfig (service (with_profiles {[ "dev" := profile None ]} config))
              (with_profile "constructor" world)
            = (Throw (Error (unknownProfileMessage "constructor")), w').
Proof.
  assert (Hno : "prod" ∉ getAvaliableProfiles
                  (service (with_profiles {[ "dev" := profile None ]} config)))
    by (apply (bool_decide_unpack _); vm_compute; exact I).
  assert (Hown : "prod" ∉ Object_prototype)
    by (apply (bool_decide_unpack _); vm_compute; exact I).
  assert (Hno' : "constructor" ∉ getAvaliableProfiles
                   (service (with_profiles {[ "dev" := profile None ]} config)))
    by (apply (bool_decide_unpack _); vm_compute; exact I).
  assert (Hin : "constructor" ∈ Object_prototype)
    by (apply (bool_decide_unpack _); vm_compute; exact I).
  assert (Hhas : hasProfile (_config (service (with_profiles {[ "dev" := profile None ]} config)))
                 = true) by (vm_compute; reflexivity).
  assert (Hra : ∀ name,
            resolveAgent
              (_config (service (with_profiles {[ "dev" := profile None ]} config)))
              (delete_profiles
                 (Object_copy
                    (_config (service (with_profiles {[ "dev" := profile None ]} config)))))
              (with_profile name world)
            = (Ok (delete_profiles
                     (Object_copy (with_profiles {[ "dev" := profile None ]} config))),
               with_profile name world)) by reflexivity.
  destruct (available_profiles_are_the_accepted_names
              (service (with_profiles {[ "dev" := profile None ]} config))
              (with_profile "prod" world) "prod" _
              eq_refl Hhas eq_refl eq_refl (Hra "prod")) as [[_ Hthrow] _].
  destruct (available_profiles_are_the_accepted_names
              (service (with_profiles {[ "dev" := profile None ]} config))
              (with_profile "constructor" world) "constructor" _
              eq_refl Hhas eq_refl eq_refl (Hra "constructor")) as [[Hthrow' _] _].
  split; [exact Hno|]. split; [exact (Hthrow (conj Hno Hown))|].
  split; [exact Hno'|]. intros Hg. exact (proj2 (Hthrow' Hg) Hin).
Defined.

Lemma validation_precedes_ignore_files_witness :
  getConfig (setConfigValidator (λ _, Some "host is required")
               (service (with_ignore [] (Some "/proj/.sftpignore") config))) world
  = (Throw (Error (validationMessage "host is required" false)), world).
Proof.
  apply (validation_precedes_ignore_files
           (setConfigValidator (λ _, Some "host is required")
              (service (with_ignore [] (Some "/proj/.sftpignore") config)))
           (λ _, Some "host is required") world world
           (delete_profiles (Object_copy (with_ignore [] (Some "/proj/.sftpignore") config)))
           (delete_profiles (Object_copy (with_ignore [] (Some "/proj/.sftpignore") config)))
           eq_refl eq_refl eq_refl).
Defined.

(** No pattern in the configuration and an empty ignore file: the
    predicate is there, built from the one empty line. *)
Lemma existing_ignoreFile_gives_predicate_witness :
  (getConfig (service (with_ignore [] (Some "/proj/.sftpignore") config))
     (with_file "/proj/.sftpignore" EmptyString world)).1
  = Ok (set_ignore (Some (ignoreFunc "/proj" "/srv/www" (Ignore_from [EmptyString])))
          (Object_copy (with_ignore [] (Some "/proj/.sftpignore") config))).
Proof.
  apply (existing_ignoreFile_gives_predicate
           (service (with_ignore [] (Some "/proj/.sftpignore") config))
           (with_file "/proj/.sftpignore" EmptyString world)
           (with_file "/proj/.sftpignore" EmptyString world)
           (Object_copy (with_ignore [] (Some "/proj/.sftpignore") config))
           "/proj/.sftpignore" EmptyString
           eq_refl eq_refl eq_refl eq_refl eq_refl).
Defined.

Lemma getConfig_strips_profiles_witness :
  ∃ sc w', getConfig (service (with_profiles {[ "dev" := profile None ]} config))
             (with_profile "dev" world) = (Ok sc, w')
           ∧ profiles sc = None.
Proof.
  assert (Hg : getConfig (service (with_profiles {[ "dev" := profile None ]} config))
                 (with_profile "dev" world)
               = (Ok (set_ignore None
                        (Object_assign
                           (delete_profiles
                              (Object_copy (with_profiles {[ "dev" := profile None ]} config)))
                           (profile None))),
                  log_line "Using profile: dev" (with_profile "dev" world)))
    by (vm_compute; reflexivity).
  eexists _, _. split; [exact Hg|].
  rewrite (getConfig_strips_profiles _ _ _ _ Hg). vm_compute. reflexivity.
Defined.

Lemma split_lines_join_witness :
  Js.split_lines (join_lines sep_CRLF ["node_modules"; "dist"; EmptyString])
  = ["node_modules"; "dist"; EmptyString]
  ∧ Js.split_lines (join_lines sep_LF ["node_modules"; "dist"; EmptyString])
    = ["node_modules"; "dist"; EmptyString].
Proof.
  apply split_lines_join; [discriminate|].
  repeat constructor.
Defined.

Lemma pending_tasks_are_running_witness :
  ∃ s sch,
    heap (exec [CreateTransferScheduler 2; Add 0 10; Add 0 11; Add 0 12; Run 0]
            (fresh_service (service config))) !! s = Some sch
    ∧ 10 ∈ running sch.
Proof.
  apply (pending_tasks_are_running (service config)
           [CreateTransferScheduler 2; Add 0 10; Add 0 11; Add 0 12; Run 0] 10).
  apply list_elem_of_lookup. exists 0. reflexivity.
Defined.

(** An ignore file that is removed after the first resolution: the second
    resolution answers from the cache and does not look at the disk. *)
Lemma getConfig_again_witness :
  (getConfig (service (with_ignore [] (Some "/proj/.sftpignore") config))
     (mkWorld
        (ignoreFileCache
           (getConfig (service (with_ignore [] (Some "/proj/.sftpignore") config))
              (with_file "/proj/.sftpignore" "dist" world)).2)
        None ∅ ∅ [] [])).1
  = (getConfig (service (with_ignore [] (Some "/proj/.sftpignore") config))
       (with_file "/proj/.sftpignore" "dist" world)).1
  ∧ fs_calls
      (getConfig (service (with_ignore [] (Some "/proj/.sftpignore") config))
         (mkWorld
            (ignoreFileCache
               (getConfig (service (with_ignore [] (Some "/proj/.sftpignore") config))
                  (with_file "/proj/.sftpignore" "dist" world)).2)
            None ∅ ∅ [] [])).2
    = [].
Proof.
  apply (proj2 (getConfig_again
                  (service (with_ignore [] (Some "/proj/.sftpignore") config))
                  (with_file "/proj/.sftpignore" "dist" world))
           (mkWorld
              (ignoreFileCache
                 (getConfig (service (with_ignore [] (Some "/proj/.sftpignore") config))
                    (with_file "/proj/.sftpignore" "dist" world)).2)
              None ∅ ∅ [] []));
    [reflexivity | reflexivity | exact (λ _ _ Hl, Hl)].
Defined.

(** The agent [$toString] with no such variable: no error, and the agent
    of the result is the function that [process.env] inherits. *)
Lemma inherited_name_passes_for_a_variable_witness :
  ∃ sc w', getConfig (service (with_agent "$toString" config)) world = (Ok sc, w')
           ∧ agent sc = Some (Proto "toString").
Proof.
  assert (Hg : getConfig (service (with_agent "$toString" config)) world
               = (Ok (set_ignore None
                        (set_agent (Proto "toString")
                           (Object_copy (with_agent "$toString" config)))),
                  world))
    by (vm_compute; reflexivity).
  assert (Hin : "toString" ∈ Object_prototype)
    by (apply (bool_decide_unpack _); vm_compute; exact I).
  eexists _, _. split; [exact Hg|].
  exact (proj2 (proj2 (inherited_name_passes_for_a_variable
                         (service (with_agent "$toString" config)) world "toString"
                         eq_refl Hin eq_refl)) _ _ Hg).
Defined.

(** A directory where the ignore file should be. *)
Lemma unreadable_ignoreFile_throws_witness :
  getConfig (service (with_ignore [] (Some "/proj/.sftpignore") config))
    (with_directory "/proj/.sftpignore" world)
  = (Throw (Error "EISDIR: illegal operation on a directory, read"),
     mkWorld ∅ None ∅ {[ "/proj/.sftpignore" := Unreadable EISDIR ]}
       [ExistsSync "/proj/.sftpignore"; ReadFileSync "/proj/.sftpignore"] [])
  ∧ reads_of "/proj/.sftpignore"
      (fs_calls
         (getConfig (service (with_ignore [] (Some "/proj/.sftpignore") config))
            (getConfig (service (with_ignore [] (Some "/proj/.sftpignore") config))
               (with_directory "/proj/.sftpignore" world)).2).2)
    = 0 + 2.
Proof.
  destruct (unreadable_ignoreFile_throws
              (service (with_ignore [] (Some "/proj/.sftpignore") config))
              (with_directory "/proj/.sftpignore" world)
              (with_directory "/proj/.sftpignore" world)
              (Object_copy (with_ignore [] (Some "/proj/.sftpignore") config))
              "/proj/.sftpignore" EISDIR
              eq_refl eq_refl eq_refl eq_refl eq_refl) as (Hg & _ & Hreads).
  split; [exact Hg | exact Hreads].
Defined.

End MoreExamples.
